(** * cpp-floats: empirical machine-accuracy bounds

    A shallow embedding of [floats.cpp] and a verification of its
    specification.

    The program has two function templates, [accuracy_bound] and
    [accuracy_vector], and a driver [main] that instantiates them at
    [float], [double] and [long double].

    - A template over the floating-point type [T] becomes a function over
      a type class [FloatType T] that carries exactly the operations the
      templates use: [+], [/], [*], [!=] and value-initialisation [T()].
    - The three instantiations are IEEE 754 binary formats given by a
      precision and an exponent bound, computed with the Standard Library's
      [SpecFloat] (round to nearest, ties to even, after every operation):
      binary32, binary64 and the 80-bit x87 extended format the source
      names in its comment on [long double].
    - The [while] loop of [accuracy_bound] may run forever; it is modelled
      with fuel, and [None] stands for "no result within the fuel".
    - [unsigned] is 32 bits wide and [size_t] 64, as with g++ on x86-64;
      both are kept as a [Z] with the wrap-around written out.
    - Of [main], the three runs and the lines written to [std::cout] are
      modelled; the file written through [utils.h] is not. *)

From stdpp Require Import base option list strings.
From Stdlib Require Import ZArith QArith Qabs Lia.
From Stdlib Require Import Floats.SpecFloat.

#[local] Open Scope Z_scope.

(** ** The operations a template parameter [T] has to offer *)

Class FloatType (T : Type) : Type := {
  fadd : T -> T -> T;          (* a + b *)
  fdiv : T -> T -> T;          (* a / b *)
  fmul : T -> T -> T;          (* a * b *)
  fne : T -> T -> bool;        (* a != b *)
  fzero : T                    (* T(), the value std::vector<T>(n) is filled with *)
}.

(** [unsigned]: 32 bits wide, conversions to it reduce modulo 2^32. *)
Definition to_unsigned (z : Z) : Z := z mod 2 ^ 32.

Section Templates.
Context {T : Type} `{FloatType T}.

(** The loop test [value + epsilon != value]. *)
Definition significant (value epsilon : T) : bool :=
  fne (fadd value epsilon) value.

(** [while (value + epsilon != value) epsilon /= divisor;]
    The result is the [epsilon] the loop is left with. One unit of fuel
    pays for one evaluation of the loop test. *)
Fixpoint while_loop (fuel : nat) (value divisor epsilon : T) : option T :=
  match fuel with
  | O => None
  | S fuel' =>
      if significant value epsilon
      then while_loop fuel' value divisor (fdiv epsilon divisor)
      else Some epsilon
  end.

(** The number of times the body [epsilon /= divisor] runs (a ghost
    counter: the loop of the source does not keep it). *)
Fixpoint iterations (fuel : nat) (value divisor epsilon : T) : option nat :=
  match fuel with
  | O => None
  | S fuel' =>
      if significant value epsilon
      then S <$> iterations fuel' value divisor (fdiv epsilon divisor)
      else Some O
  end.

(** [accuracy_bound]: [epsilon = initial_guess]; the loop;
    [return epsilon * divisor]. *)
Definition accuracy_bound (fuel : nat) (value divisor initial_guess : T)
  : option T :=
  epsilon ← while_loop fuel value divisor initial_guess;
  Some (fmul epsilon divisor).

(** The guess after [n] runs of the loop body. *)
Fixpoint divide (n : nat) (divisor epsilon : T) : T :=
  match n with
  | O => epsilon
  | S n' => divide n' divisor (fdiv epsilon divisor)
  end.

(** The objects [accuracy_vector] works on: the caller's vector
    [divisors], which it holds by reference, and its locals [output],
    [guess] and the loop counter [i]. *)
Record frame : Type := Frame {
  divisors : list T;
  output : list T;
  guess : T;
  i : Z
}.

(** The body of the [for] loop and its [++i]:
    [output[i] = accuracy_bound<T>(value, divisors[i], guess);
     guess = output[i];]
    An index outside a vector has no defined behaviour: no result. *)
Definition loop_body (fuel : nat) (value : T) (st : frame) : option frame :=
  let idx := Z.to_nat (i st) in
  d ← divisors st !! idx;
  r ← accuracy_bound fuel value d (guess st);
  _ ← output st !! idx;
  let output' := <[idx := r]> (output st) in
  g ← output' !! idx;
  Some {| divisors := divisors st; output := output'; guess := g;
          i := to_unsigned (i st + 1) |}.

(** [for (unsigned i = 0; i < size; ++i) body].  [trips] bounds the
    number of times the body may run. *)
Fixpoint for_loop (trips : nat) (fuel : nat) (value : T) (size : Z)
    (st : frame) : option frame :=
  if i st <? size then
    match trips with
    | O => None
    | S trips' =>
        st' ← loop_body fuel value st;
        for_loop trips' fuel value size st'
    end
  else Some st.

(** The number of elements [accuracy_vector] handles: the size of
    [divisors] after its conversion to [unsigned]. *)
Definition handled (divs : list T) : nat :=
  Z.to_nat (to_unsigned (Z.of_nat (length divs))).

(** [accuracy_vector]: [size] is the vector's size converted to
    [unsigned]; [output] starts as [size] value-initialised elements;
    the loop can run [size] times at most. The final frame is kept so
    that what became of [divisors] can be stated. *)
Definition accuracy_vector_run (fuel : nat) (value : T) (divs : list T)
    (initial_guess : T) : option frame :=
  let size := to_unsigned (Z.of_nat (length divs)) in
  for_loop (Z.to_nat size) fuel value size
    {| divisors := divs;
       output := replicate (Z.to_nat size) fzero;
       guess := initial_guess;
       i := 0 |}.

Definition accuracy_vector (fuel : nat) (value : T) (divs : list T)
    (initial_guess : T) : option (list T) :=
  output <$> accuracy_vector_run fuel value divs initial_guess.

(** The guess stage [k] starts from: [initial_guess] for the first
    stage, the previous stage's result afterwards. *)
Definition seed (initial_guess : T) (out : list T) (k : nat) : option T :=
  match k with
  | O => Some initial_guess
  | S k' => out !! k'
  end.
End Templates.

Arguments frame T : clear implicits.

(** ** The floating-point types of the driver *)

(** A value of the binary format with [prec] bits of precision and
    exponent bound [emax]. *)
Record bfloat (prec emax : Z) : Type := BFloat { sf : spec_float }.
Arguments BFloat {prec emax} sf.
Arguments sf {prec emax} b.

Abbreviation float := (bfloat 24 128).              (* IEEE 754 binary32 *)
Abbreviation double := (bfloat 53 1024).            (* IEEE 754 binary64 *)
Abbreviation long_double := (bfloat 64 16384).      (* x87 80-bit extended *)

Section Format.
Context {prec emax : Z}.

Definition bf_add (a b : bfloat prec emax) : bfloat prec emax :=
  BFloat (SFadd prec emax (sf a) (sf b)).
Definition bf_div (a b : bfloat prec emax) : bfloat prec emax :=
  BFloat (SFdiv prec emax (sf a) (sf b)).
Definition bf_mul (a b : bfloat prec emax) : bfloat prec emax :=
  BFloat (SFmul prec emax (sf a) (sf b)).
(** [a != b]: true as well when the operands do not compare (NaN). *)
Definition bf_ne (a b : bfloat prec emax) : bool :=
  negb (SFeqb (sf a) (sf b)).
Definition bf_lt (a b : bfloat prec emax) : bool :=
  SFltb (sf a) (sf b).

(** The value is one the format has: its mantissa and exponent are the
    canonical ones. The operations above keep this. *)
Definition bf_valid (a : bfloat prec emax) : bool :=
  valid_binary prec emax (sf a).

(** An integer, rounded to the format. *)
Definition of_Z (z : Z) : bfloat prec emax :=
  BFloat (binary_normalize prec emax z 0 false).

(** Conversion from another binary format: the value rounded to this
    one (exact when this format is the wider one). *)
Definition convert {prec' emax' : Z} (a : bfloat prec' emax')
  : bfloat prec emax :=
  BFloat match sf a with
         | S754_finite s m e => binary_round prec emax s m e
         | x => x
         end.
End Format.

#[export] Instance bfloat_type (prec emax : Z) : FloatType (bfloat prec emax) := {
  fadd := bf_add;
  fdiv := bf_div;
  fmul := bf_mul;
  fne := bf_ne;
  fzero := BFloat (S754_zero false)
}.

(** The real number a float stands for; infinities and NaN stand for none. *)
Definition SF2Q (x : spec_float) : option Q :=
  match x with
  | S754_zero _ => Some 0%Q
  | S754_finite s m e =>
      Some (inject_Z (if s then Z.neg m else Z.pos m) * Qpower 2 e)%Q
  | S754_infinity _ | S754_nan => None
  end.

Definition to_Q {prec emax : Z} (a : bfloat prec emax) : option Q := SF2Q (sf a).

(** Two floats, possibly of different formats, stand for the same number. *)
Definition same_value {p1 e1 p2 e2 : Z} (a : bfloat p1 e1) (b : bfloat p2 e2)
  : Prop :=
  match to_Q a, to_Q b with
  | Some x, Some y => (x == y)%Q
  | _, _ => False
  end.

(** [a] stands for a number strictly above the one [b] stands for. *)
Definition exceeds {p1 e1 p2 e2 : Z} (a : bfloat p1 e1) (b : bfloat p2 e2)
  : Prop :=
  match to_Q a, to_Q b with
  | Some x, Some y => (y < x)%Q
  | _, _ => False
  end.

(** ** The driver *)

(** A decimal literal [num / den] of the source text: a [double], the
    nearest to the written number. *)
Definition literal (num den : Z) : double := bf_div (of_Z num) (of_Z den).

(** [{2.0, 1.1, 1.01, 1.001, 1.0001, 1.00001}], each literal converted to
    [float]. *)
Definition single_divisors : list float :=
  [ convert (literal 2 1); convert (literal 11 10); convert (literal 101 100);
    convert (literal 1001 1000); convert (literal 10001 10000);
    convert (literal 100001 100000) ].

(** The range constructors convert element by element. *)
Definition double_divisors : list double := convert <$> single_divisors.
Definition extended_divisors : list long_double := convert <$> single_divisors.

(** [size_t]: 64 bits wide. *)
Definition to_size_t (z : Z) : Z := z mod 2 ^ 64.

(** [v[v.size() - 1]] *)
Definition last_element {A : Type} (v : list A) : option A :=
  v !! Z.to_nat (to_size_t (Z.of_nat (length v) - 1)).

(** [pow(2, k)] of the C library, for an integer [k]: the double [2^k]. *)
Definition pow2 (k : Z) : double :=
  BFloat (SFldexp 53 1024 (sf (literal 1 1)) k).

(** One line written to [std::cout]: the text, and the two numbers printed
    in it (their decimal rendering is not modelled). *)
Record console_line : Type := ConsoleLine {
  text : string;
  bound : spec_float;
  theoretical : spec_float
}.

(** What [main] computes. *)
Record vectors : Type := Vectors {
  single_vector : list float;
  double_vector : list double;
  extended_vector : list long_double
}.

(** The three instantiations of [main], with its constants as parameters:
    [value] and [initial_guess] are written as [double] literals and
    converted to each [T]; the divisors are given as [float]s and
    converted to the wider types. *)
Definition driver_vectors (fuel : nat) (value : double) (divs : list float)
    (initial_guess : double) : option vectors :=
  s ← accuracy_vector fuel (convert value) divs (convert initial_guess);
  d ← accuracy_vector fuel value (convert <$> divs) initial_guess;
  e ← accuracy_vector fuel (convert value) (convert <$> divs)
        (convert initial_guess);
  Some (Vectors s d e).

Definition main_vectors (fuel : nat) : option vectors :=
  s ← accuracy_vector fuel (convert (literal 1 1)) single_divisors
        (convert (literal 1 1));
  d ← accuracy_vector fuel (literal 1 1) double_divisors (literal 1 1);
  e ← accuracy_vector fuel (convert (literal 1 1)) extended_divisors
        (convert (literal 1 1));
  Some (Vectors s d e).

(** The last element of each vector. *)
Definition final_bounds (v : vectors) : option (float * double * long_double) :=
  s ← last_element (single_vector v);
  d ← last_element (double_vector v);
  e ← last_element (extended_vector v);
  Some (s, d, e).

(** What [main] prints. The file it then writes through [utils.h] is not
    part of this model. *)
Definition main (fuel : nat) : option (list console_line) :=
  v ← main_vectors fuel;
  '(s, d, e) ← final_bounds v;
  Some [ ConsoleLine "Single precision accuracy upper bound: "
           (sf s) (sf (pow2 (-24)));
         ConsoleLine "Double precision accuracy upper bound: "
           (sf d) (sf (pow2 (-53)));
         ConsoleLine "Extended precision accuracy upper bound: "
           (sf e) (sf (pow2 (-64))) ].

(** The narrower the type, the larger the bound. *)
Definition narrower_exceeds (b : float * double * long_double) : Prop :=
  exceeds b.1.1 b.1.2 /\ exceeds b.1.2 b.2.

(** A [double] literal of the source used where a [T] is expected. *)
Definition lit {prec emax : Z} (num den : Z) : bfloat prec emax :=
  convert (literal num den).

(** ** Auxiliary definitions for the proofs *)

(** The first [n] guesses of the loop all pass its test. *)
Fixpoint all_significant {T : Type} `{FloatType T} (n : nat)
    (value divisor epsilon : T) : bool :=
  match n with
  | O => true
  | S n' =>
      significant value epsilon
      && all_significant n' value divisor (fdiv epsilon divisor)
  end.

(** A measure on the finite values of a format that halving lowers:
    the distance of the exponent from the lowest one, plus the mantissa. *)
Definition rank (emin : Z) (x : spec_float) : nat :=
  match x with
  | S754_finite _ m e => (Z.to_nat (e - emin) + Pos.to_nat m)%nat
  | _ => O
  end.

(** +0 or -0. *)
Definition is_zero (x : spec_float) : bool :=
  match x with S754_zero _ => true | _ => false end.

(** NaN. *)
Definition is_nan (x : spec_float) : bool :=
  match x with S754_nan => true | _ => false end.

(** An infinity. *)
Definition is_infinity (x : spec_float) : bool :=
  match x with S754_infinity _ => true | _ => false end.

(** A zero or a finite number. *)
Definition is_finite (x : spec_float) : bool :=
  match x with S754_zero _ | S754_finite _ _ _ => true | _ => false end.

(** A zero or a finite number that the format has. *)
Definition finite_value (prec emax : Z) (x : spec_float) : bool :=
  match x with
  | S754_zero _ => true
  | S754_finite _ m e => bounded prec emax m e
  | _ => false
  end.

(** The number 2 in a format, from its mantissa [mt = 2 ^ (prec - 1)]. *)
Definition two_of (prec emax : Z) (mt : positive) : bfloat prec emax :=
  BFloat (S754_finite false mt (2 - prec)).

(** The number 1 in a format, from the mantissa [mt = 2 ^ (prec - 1)]. *)
Definition one_of (prec emax : Z) (mt : positive) : bfloat prec emax :=
  BFloat (S754_finite false mt (1 - prec)).

(** A nonzero number below the normal range: its mantissa has fewer
    than [prec] digits. *)
Definition is_subnormal (prec : Z) (x : spec_float) : bool :=
  match x with
  | S754_finite _ m _ => Z.pos (digits2_pos m) <? prec
  | _ => false
  end.

(** The size of a finite number in units of the least positive number
    [2 ^ emin] of its format. *)
Definition magnitude (emin : Z) (x : spec_float) : Z :=
  match x with
  | S754_finite _ m e => Z.pos m * 2 ^ (e - emin)
  | _ => 0
  end.

(** A finite number too large for a subnormal number to change, or an
    infinity. *)
Definition outweighs_subnormals (prec emax : Z) (x : spec_float) : bool :=
  match x with
  | S754_infinity _ => true
  | S754_finite _ _ e => emin prec emax + prec + 1 <=? e
  | _ => false
  end.

(** What a shift record says of a number [A] counted in units [U]: the
    mantissa is the quotient, and the two flags place the remainder
    against half a unit. *)
Definition record_of (A U : Z) (mrs : shr_record) : Prop :=
  0 < U /\ 0 <= shr_m mrs /\
  exists rem, 0 <= rem < U /\ A = shr_m mrs * U + rem /\
              (shr_r mrs = true <-> U <= 2 * rem) /\
              (shr_s mrs = true <-> rem <> 0 /\ 2 * rem <> U).

(** What [accuracy_vector] computes, written as a recursion over the
    divisors it gets to: each stage's result seeds the next. *)
Fixpoint stages {T : Type} `{FloatType T} (fuel : nat) (value : T)
    (divs : list T) (g : T) : option (list T) :=
  match divs with
  | [] => Some []
  | d :: divs' =>
      r ← accuracy_bound fuel value d g;
      rest ← stages fuel value divs' r;
      Some (r :: rest)
  end.

(** * Properties of the templates, for every [T] *)

Section TemplateProps.
Context {T : Type} `{FloatType T}.
Implicit Types (value divisor epsilon v d g e r : T) (fuel n k : nat).

(** ** The [while] loop *)

Lemma divide_S n d g : divide (S n) d g = fdiv (divide n d g) d.
Proof.
  revert g. induction n as [|n IH]; intros g; [done|].
  change (divide (S (S n)) d g) with (divide (S n) d (fdiv g d)).
  by rewrite IH.
Qed.

Lemma divide_add n k d g : divide (n + k) d g = divide k d (divide n d g).
Proof. revert g. induction n as [|n IH]; intros g; [done|]. apply IH. Qed.

(** The loop returns [e] exactly when [e] is the first guess of the
    sequence [g, g/d, (g/d)/d, ...] that the loop test rejects, and the
    fuel reaches that far. *)
Lemma while_loop_exit fuel v d g e :
  while_loop fuel v d g = Some e <->
  exists n, (n < fuel)%nat /\ e = divide n d g /\
            significant v e = false /\
            forall k, (k < n)%nat -> significant v (divide k d g) = true.
Proof.
  revert g. induction fuel as [|fuel IH]; intros g; simpl.
  { split; [done|]. intros (n & Hn & _). lia. }
  destruct (significant v g) eqn:Hg.
  - rewrite IH. split.
    + intros (n & Hn & -> & He & Hk). exists (S n).
      split_and!; [lia|done|done|].
      intros [|k] ?; [done|]. apply Hk. lia.
    + intros (n & Hn & -> & He & Hk). destruct n as [|n].
      { simpl in He. congruence. }
      exists n. split_and!; [lia|done|done|].
      intros k ?. apply (Hk (S k)). lia.
  - split.
    + intros [= <-]. exists O. split_and!; [lia|done|done|]. intros; lia.
    + intros (n & Hn & -> & He & Hk). destruct n as [|n]; [done|].
      specialize (Hk O ltac:(lia)). simpl in Hk. congruence.
Qed.

Lemma while_loop_fuel_mono fuel fuel' v d g e :
  while_loop fuel v d g = Some e -> (fuel <= fuel')%nat ->
  while_loop fuel' v d g = Some e.
Proof.
  rewrite !while_loop_exit. intros (n & ? & ?) ?. exists n. split; [lia|done].
Qed.

Lemma while_loop_fuel_indep fuel fuel' v d g e e' :
  while_loop fuel v d g = Some e -> while_loop fuel' v d g = Some e' ->
  e = e'.
Proof.
  intros He He'.
  apply (while_loop_fuel_mono _ (fuel `max` fuel')) in He; [|lia].
  apply (while_loop_fuel_mono _ (fuel `max` fuel')) in He'; [|lia].
  congruence.
Qed.

(** The ghost counter counts the divisions that lead to the result. *)
Lemma iterations_while_loop fuel v d g n :
  iterations fuel v d g = Some n ->
  while_loop fuel v d g = Some (divide n d g).
Proof.
  revert g n. induction fuel as [|fuel IH]; intros g n; simpl; [done|].
  destruct (significant v g).
  - destruct (iterations fuel v d (fdiv g d)) as [m|] eqn:Hm; [|done].
    intros [= <-]. simpl. by apply IH.
  - by intros [= <-].
Qed.

Lemma while_loop_iterations fuel v d g e :
  while_loop fuel v d g = Some e -> is_Some (iterations fuel v d g).
Proof.
  revert g. induction fuel as [|fuel IH]; intros g; simpl; [done|].
  destruct (significant v g); [|done].
  intros [n Hn]%IH. rewrite Hn. by eexists.
Qed.

(** If no guess of the sequence is ever rejected, no fuel is enough. *)
Lemma while_loop_diverges v d g :
  (forall n, significant v (divide n d g) = true) ->
  forall fuel, while_loop fuel v d g = None.
Proof.
  intros Hsig fuel. destruct (while_loop fuel v d g) as [e|] eqn:He; [|done].
  apply while_loop_exit in He as (n & _ & -> & He & _).
  rewrite Hsig in He. done.
Qed.

(** A guess that division leaves unchanged stays for good. *)
Lemma divide_fixed n d x : fdiv x d = x -> divide n d x = x.
Proof. intros Hx. induction n as [|n IH]; [done|]. simpl. by rewrite Hx. Qed.

(** ** [accuracy_bound] *)

Lemma accuracy_bound_exit fuel v d g r :
  accuracy_bound fuel v d g = Some r <->
  exists e, while_loop fuel v d g = Some e /\ r = fmul e d.
Proof.
  unfold accuracy_bound. destruct (while_loop fuel v d g) as [e|]; simpl.
  - split; [intros [= <-]; by eexists|]. by intros (e' & [= <-] & ->).
  - split; [done|]. by intros (e' & ? & _).
Qed.

Lemma accuracy_bound_fuel_mono fuel fuel' v d g r :
  accuracy_bound fuel v d g = Some r -> (fuel <= fuel')%nat ->
  accuracy_bound fuel' v d g = Some r.
Proof.
  rewrite !accuracy_bound_exit. intros (e & He & ->) ?. exists e.
  split; [|done]. by eapply while_loop_fuel_mono.
Qed.

Lemma accuracy_bound_fuel_indep fuel fuel' v d g r r' :
  accuracy_bound fuel v d g = Some r -> accuracy_bound fuel' v d g = Some r' ->
  r = r'.
Proof.
  rewrite !accuracy_bound_exit. intros (e & He & ->) (e' & He' & ->).
  by rewrite (while_loop_fuel_indep _ _ _ _ _ _ _ He He').
Qed.

Lemma accuracy_bound_no_fuel v d g : accuracy_bound 0 v d g = None.
Proof. done. Qed.
End TemplateProps.

Section VectorProps.
Context {T : Type} `{FloatType T}.
Implicit Types (value v d g r : T) (fuel n k trips : nat)
  (divs done rest out : list T).

Lemma to_unsigned_small z : 0 <= z < 2 ^ 32 -> to_unsigned z = z.
Proof. apply Z.mod_small. Qed.

Lemma to_unsigned_range z : 0 <= to_unsigned z < 2 ^ 32.
Proof. apply Z.mod_pos_bound. lia. Qed.

Lemma to_unsigned_le z : 0 <= z -> to_unsigned z <= z.
Proof. intros. apply Z.mod_le; lia. Qed.

Lemma handled_le divs : (handled divs <= length divs)%nat.
Proof.
  unfold handled. pose proof (to_unsigned_le (Z.of_nat (length divs))). lia.
Qed.

Lemma handled_small divs :
  Z.of_nat (length divs) < 2 ^ 32 -> handled divs = length divs.
Proof. intros. unfold handled. rewrite to_unsigned_small; lia. Qed.

Lemma default_last_cons g r rest :
  default g (last (r :: rest)) = default r (last rest).
Proof. rewrite last_cons. by destruct (last rest). Qed.

(** The loop invariant: with [k] stages done and their results in
    [done], the remaining [trips] stages are those of [stages] on the
    divisors from index [k] on. *)
Lemma for_loop_stages fuel v divs size trips k done g :
  length done = k -> (k + trips = size)%nat ->
  (size <= length divs)%nat -> Z.of_nat size < 2 ^ 32 ->
  for_loop trips fuel v (Z.of_nat size)
    {| divisors := divs; output := done ++ replicate trips fzero;
       guess := g; i := Z.of_nat k |}
  = rest ← stages fuel v (take trips (drop k divs)) g;
    Some {| divisors := divs; output := done ++ rest;
            guess := default g (last rest); i := Z.of_nat size |}.
Proof.
  revert k done g. induction trips as [|trips IH]; intros k done g Hk Hsz Hle Hlt.
  - simpl. replace k with size by lia.
    by rewrite Z.ltb_irrefl.
  - cbn [for_loop i].
    destruct (Z.ltb_spec (Z.of_nat k) (Z.of_nat size)) as [_|?]; [|lia].
    destruct (lookup_lt_is_Some_2 divs k) as [d Hd]; [lia|].
    unfold loop_body. cbn [i divisors output guess].
    rewrite Nat2Z.id, Hd. cbn [mbind option_bind].
    rewrite (drop_S _ _ _ Hd). cbn [take stages].
    destruct (accuracy_bound fuel v d g) as [r|]; [|done].
    cbn [mbind option_bind].
    rewrite lookup_app_r, Hk, Nat.sub_diag by lia. cbn [replicate lookup list_lookup].
    cbn [mbind option_bind].
    rewrite insert_app_r_alt, Hk, Nat.sub_diag by lia. cbn [insert list_insert].
    rewrite lookup_app_r, Hk, Nat.sub_diag by lia. cbn [lookup list_lookup].
    cbn [mbind option_bind].
    rewrite to_unsigned_small by lia.
    replace (Z.of_nat k + 1) with (Z.of_nat (S k)) by lia.
    rewrite (cons_middle r done), app_assoc.
    rewrite IH; [|rewrite length_app; simpl; lia|lia|done|done].
    destruct (stages fuel v (take trips (drop (S k) divs)) r) as [rest|]; [|done].
    cbn [mbind option_bind].
    by rewrite default_last_cons, <-app_assoc.
Qed.

(** [accuracy_vector] runs the stages over the divisors it handles and
    leaves the caller's vector as it found it. *)
Lemma accuracy_vector_run_stages fuel v divs g :
  accuracy_vector_run fuel v divs g
  = rest ← stages fuel v (take (handled divs) divs) g;
    Some {| divisors := divs; output := rest;
            guess := default g (last rest);
            i := Z.of_nat (handled divs) |}.
Proof.
  unfold accuracy_vector_run. fold (handled divs).
  pose proof (to_unsigned_range (Z.of_nat (length divs))) as Hr.
  replace (to_unsigned (Z.of_nat (length divs)))
    with (Z.of_nat (handled divs)) by (unfold handled; lia).
  apply (for_loop_stages fuel v divs (handled divs) (handled divs) 0 [] g);
    [done|done|apply handled_le|unfold handled; lia].
Qed.

Lemma accuracy_vector_stages fuel v divs g :
  accuracy_vector fuel v divs g = stages fuel v (take (handled divs) divs) g.
Proof.
  unfold accuracy_vector. rewrite accuracy_vector_run_stages.
  by destruct (stages fuel v (take (handled divs) divs) g).
Qed.

Lemma seed_cons g r rest k : seed g (r :: rest) (S k) = seed r rest k.
Proof. by destruct k. Qed.

(** [stages] returns [out] exactly when [out] has one result per
    divisor and each is what [accuracy_bound] returns from its seed. *)
Lemma stages_spec fuel v divs g out :
  stages fuel v divs g = Some out <->
  length out = length divs /\
  forall k d, divs !! k = Some d ->
    exists s r, seed g out k = Some s /\ out !! k = Some r /\
                accuracy_bound fuel v d s = Some r.
Proof.
  revert g out. induction divs as [|d divs IH]; intros g out; simpl.
  - split.
    + intros [= <-]. split; [done|]. intros k d' Hk. done.
    + intros [Hlen _]. by destruct out.
  - split.
    + destruct (accuracy_bound fuel v d g) as [r|] eqn:Hr; [|done]. simpl.
      destruct (stages fuel v divs r) as [rest|] eqn:Hrest; [|done]. simpl.
      intros [= <-]. apply IH in Hrest as [Hlen Hel].
      split; [simpl; by rewrite Hlen|].
      intros [|k] d' Hk.
      * injection Hk as <-. by exists g, r.
      * rewrite seed_cons. by apply Hel.
    + intros [Hlen Hel]. destruct out as [|r rest]; [done|].
      destruct (Hel O d eq_refl) as (s & r' & [= <-] & [= <-] & Hr).
      rewrite Hr. simpl.
      assert (stages fuel v divs r = Some rest) as ->; [|done].
      apply IH. split; [simpl in Hlen; lia|].
      intros k d' Hk. destruct (Hel (S k) d' Hk) as (s' & r' & Hs & Hr' & Hb).
      rewrite seed_cons in Hs. by exists s', r'.
Qed.

Lemma stages_fuel_mono fuel fuel' v divs g out :
  stages fuel v divs g = Some out -> (fuel <= fuel')%nat ->
  stages fuel' v divs g = Some out.
Proof.
  rewrite !stages_spec. intros [Hlen Hel] ?. split; [done|].
  intros k d Hk. destruct (Hel k d Hk) as (s & r & ? & ? & ?).
  exists s, r. split_and!; [done..|]. by eapply accuracy_bound_fuel_mono.
Qed.

Lemma accuracy_vector_fuel_mono fuel fuel' v divs g out :
  accuracy_vector fuel v divs g = Some out -> (fuel <= fuel')%nat ->
  accuracy_vector fuel' v divs g = Some out.
Proof. rewrite !accuracy_vector_stages. apply stages_fuel_mono. Qed.

Lemma accuracy_vector_length fuel v divs g out :
  accuracy_vector fuel v divs g = Some out -> length out = handled divs.
Proof.
  rewrite accuracy_vector_stages, stages_spec. intros [-> _].
  rewrite length_take. pose proof (handled_le divs). lia.
Qed.

(** A vector whose size converts to zero is not looked at. *)
Lemma accuracy_vector_size_zero fuel v divs g :
  to_unsigned (Z.of_nat (length divs)) = 0 ->
  accuracy_vector fuel v divs g = Some [].
Proof.
  intros Hz. unfold accuracy_vector, accuracy_vector_run. rewrite Hz. done.
Qed.
End VectorProps.

(** * The specification's claims about the templates *)

Section TemplateClaims.
Context {T : Type} `{FloatType T}.
Implicit Types (value v d g e r p : T) (fuel n k : nat)
  (divs out : list T).

Lemma while_loop_reaches n v d g :
  significant v (divide n d g) = false ->
  is_Some (while_loop (S n) v d g).
Proof.
  revert g. induction n as [|n IH]; intros g Hn.
  - simpl in *. rewrite Hn. by eexists.
  - change (while_loop (S (S n)) v d g)
      with (if significant v g then while_loop (S n) v d (fdiv g d) else Some g).
    destruct (significant v g); [by apply IH|by eexists].
Qed.

Lemma all_significant_spec n v d g :
  all_significant n v d g = true ->
  forall k, (k < n)%nat -> significant v (divide k d g) = true.
Proof.
  revert g. induction n as [|n IH]; intros g Hall k Hk; [lia|].
  simpl in Hall. apply andb_prop in Hall as [Hg Hrest].
  destruct k as [|k]; [done|]. simpl. apply IH; [done|lia].
Qed.

(** Once the guesses have reached, all of them significant, a guess
    that is significant and that division leaves unchanged, the loop
    cannot end. *)
Lemma while_loop_stuck n v d g :
  all_significant n v d g = true ->
  significant v (divide n d g) = true ->
  fdiv (divide n d g) d = divide n d g ->
  forall fuel, while_loop fuel v d g = None.
Proof.
  intros Hall Hn Hfix. apply while_loop_diverges. intros k.
  destruct (Nat.lt_ge_cases k n) as [Hk|Hk].
  - by eapply all_significant_spec.
  - replace k with (n + (k - n))%nat by lia.
    by rewrite divide_add, divide_fixed.
Qed.

(** What [accuracy_bound] returns when its loop runs at least once: the
    guess [p] before the last division passed the loop test, the
    quotient [p / d] did not, and the result is [(p / d) * d]. When that
    product is [p] again, the result is a bound of the kind the
    specification describes. *)
Lemma accuracy_bound_backoff fuel v d g r :
  significant v g = true ->
  accuracy_bound fuel v d g = Some r ->
  exists p, significant v p = true /\
            significant v (fdiv p d) = false /\
            r = fmul (fdiv p d) d /\
            (r = p -> significant v r = true /\
                      significant v (fdiv r d) = false).
Proof.
  intros Hg (e & (n & _ & -> & He & Hk)%while_loop_exit & ->)%accuracy_bound_exit.
  destruct n as [|n]; [simpl in He; congruence|].
  rewrite divide_S in *. exists (divide n d g).
  split_and!; [apply Hk; lia|done|done|].
  intros ->. split; [apply Hk; lia|done].
Qed.

(** The loop of [accuracy_bound] ends, and the function returns, exactly
    when one of the guesses [initial_guess], [initial_guess / divisor],
    [(initial_guess / divisor) / divisor], ... fails the test
    [value + guess != value]. Nothing about the divisor enters. *)
Lemma accuracy_bound_returns_iff v d g :
  (exists fuel r, accuracy_bound fuel v d g = Some r) <->
  (exists n, significant v (divide n d g) = false).
Proof.
  split.
  - intros (fuel & r & Hr). apply accuracy_bound_exit in Hr as (e & He & _).
    apply while_loop_exit in He as (n & _ & -> & He & _). by exists n.
  - intros (n & Hn). destruct (while_loop_reaches n v d g Hn) as [e He].
    exists (S n), (fmul e d). apply accuracy_bound_exit. by exists e.
Qed.

(** C4: [accuracy_vector] returns [out] exactly when [out] has one
    element for each divisor the loop handles and the element at index
    [k] is the result of [accuracy_bound] on [value], the divisor at
    index [k] and the seed of stage [k]: [initial_guess] for [k = 0],
    the element at index [k - 1] otherwise. *)
Theorem accuracy_vector_stagewise fuel v divs g out :
  accuracy_vector fuel v divs g = Some out <->
  length out = handled divs /\
  forall k, (k < handled divs)%nat ->
    exists d s r, divs !! k = Some d /\ seed g out k = Some s /\
                  out !! k = Some r /\
                  accuracy_bound fuel v d s = Some r.
Proof.
  pose proof (handled_le divs) as Hle.
  rewrite accuracy_vector_stages, stages_spec, length_take_le by done.
  split; intros [Hlen Hel]; (split; [done|]).
  - intros k Hk. destruct (lookup_lt_is_Some_2 divs k) as [d Hd]; [lia|].
    destruct (Hel k d) as (s & r & ? & ? & ?); [by rewrite lookup_take_lt|].
    by exists d, s, r.
  - intros k d [Hd Hk]%lookup_take_Some.
    destruct (Hel k Hk) as (d' & s & r & Hd' & ? & ? & ?).
    assert (d' = d) as -> by congruence. by exists s, r.
Qed.

(** C9, as amended: when [value + initial_guess == value] holds at
    entry, the loop body never runs and [accuracy_bound] returns
    [initial_guess * divisor]. *)
Theorem accuracy_bound_insignificant_guess fuel v d g :
  significant v g = false ->
  iterations (S fuel) v d g = Some O /\
  accuracy_bound (S fuel) v d g = Some (fmul g d).
Proof. intros Hg. unfold accuracy_bound. simpl. by rewrite Hg. Qed.

(** The length part of C5, for vectors whose size an [unsigned] holds. *)
Lemma accuracy_vector_length_small fuel v divs g out :
  Z.of_nat (length divs) < 2 ^ 32 ->
  accuracy_vector fuel v divs g = Some out -> length out = length divs.
Proof.
  intros Hsmall Hout. rewrite <-(handled_small divs Hsmall).
  by eapply accuracy_vector_length.
Qed.

(** The last part of C5: no divisors, no result, and no call of
    [accuracy_bound] (with no fuel, any call would have failed). *)
Lemma accuracy_vector_empty v g : accuracy_vector 0 v [] g = Some [].
Proof. done. Qed.

Lemma accuracy_vector_no_fuel v divs g out :
  accuracy_vector 0 v divs g = Some out -> out = [] /\ handled divs = O.
Proof.
  rewrite accuracy_vector_stages. pose proof (handled_le divs) as Hle.
  pose proof (length_take_le divs (handled divs) Hle) as Hlen.
  destruct (take (handled divs) divs) as [|d rest]; simpl in *.
  - intros [= <-]. split; [done|lia].
  - done.
Qed.
End TemplateClaims.

(** * Further properties of the templates *)

Section TemplateExtras.
Context {T : Type} `{FloatType T}.
Implicit Types (value v d g e r p : T) (fuel n k : nat) (divs out : list T).

(** The ghost counter is the index of the first guess that fails the
    loop test. *)
Lemma iterations_exit fuel v d g n :
  iterations fuel v d g = Some n <->
  (n < fuel)%nat /\ significant v (divide n d g) = false /\
  forall k, (k < n)%nat -> significant v (divide k d g) = true.
Proof.
  revert g n. induction fuel as [|fuel IH]; intros g n; simpl.
  { split; [done|]. intros [? _]. lia. }
  destruct (significant v g) eqn:Hg.
  - destruct n as [|n].
    + split.
      * destruct (iterations fuel v d (fdiv g d)); done.
      * intros (_ & Habs & _). simpl in Habs. congruence.
    + assert (S <$> iterations fuel v d (fdiv g d) = Some (S n)
              <-> iterations fuel v d (fdiv g d) = Some n) as ->.
      { destruct (iterations fuel v d (fdiv g d)) as [m|]; simpl;
          [split; intros [= ->]; done|done]. }
      rewrite IH. split.
      * intros (Hn & Habs & Hsig). split_and!; [lia|done|].
        intros [|k] ?; [done|]. apply Hsig. lia.
      * intros (Hn & Habs & Hsig). split_and!; [lia|done|].
        intros k ?. apply (Hsig (S k)). lia.
  - split.
    + intros [= <-]. split_and!; [lia|done|]. intros; lia.
    + intros (_ & Habs & Hsig). destruct n as [|n]; [done|].
      specialize (Hsig O ltac:(lia)). simpl in Hsig. congruence.
Qed.

(** X1: what [accuracy_bound] returns. With [n] the number of divisions
    after which the guess first fails the loop test, the function returns
    that guess times the divisor, provided the fuel allows [n + 1] tests;
    it returns nothing else. *)
Theorem accuracy_bound_first_absorbed fuel v d g r :
  accuracy_bound fuel v d g = Some r <->
  exists n, (n < fuel)%nat /\
            iterations fuel v d g = Some n /\
            r = fmul (divide n d g) d /\
            significant v (divide n d g) = false /\
            forall k, (k < n)%nat -> significant v (divide k d g) = true.
Proof.
  rewrite accuracy_bound_exit. split.
  - intros (e & (n & Hn & -> & Habs & Hsig)%while_loop_exit & ->).
    exists n. split_and!; try done. by apply iterations_exit.
  - intros (n & Hn & _ & -> & Habs & Hsig). exists (divide n d g).
    split; [|done]. apply while_loop_exit. by exists n.
Qed.

(** X3: a guess that passes the loop test and that division by the
    divisor leaves unchanged stops the search for good: if the guesses
    reach one, all of them passing the test, [accuracy_bound] never
    returns. *)
Theorem accuracy_bound_fixed_point_diverges n v d g :
  (forall k, (k < n)%nat -> significant v (divide k d g) = true) ->
  significant v (divide n d g) = true ->
  fdiv (divide n d g) d = divide n d g ->
  forall fuel, accuracy_bound fuel v d g = None.
Proof.
  intros Hbefore Hn Hfix fuel. unfold accuracy_bound.
  rewrite while_loop_diverges; [done|]. intros k.
  destruct (Nat.lt_ge_cases k n) as [Hk|Hk]; [by apply Hbefore|].
  replace k with (n + (k - n))%nat by lia.
  by rewrite divide_add, divide_fixed.
Qed.

(** ** [accuracy_vector] on parts of a vector *)

Lemma accuracy_vector_small fuel v divs g :
  Z.of_nat (length divs) < 2 ^ 32 ->
  accuracy_vector fuel v divs g = stages fuel v divs g.
Proof.
  intros Hsmall.
  by rewrite accuracy_vector_stages, handled_small, firstn_all by done.
Qed.

Lemma stages_app fuel v divs divs' g :
  stages fuel v (divs ++ divs') g
  = out ← stages fuel v divs g;
    out' ← stages fuel v divs' (default g (last out));
    Some (out ++ out').
Proof.
  revert g. induction divs as [|d divs IH]; intros g; simpl.
  - by destruct (stages fuel v divs' g).
  - destruct (accuracy_bound fuel v d g) as [r|]; [|done]. simpl.
    rewrite IH. destruct (stages fuel v divs r) as [out|]; [|done]. simpl.
    rewrite default_last_cons.
    by destruct (stages fuel v divs' (default r (last out))).
Qed.

(** X4: refining over a vector of divisors is refining over its first
    part and then over the rest, starting from the last bound the first
    part gave (from the initial guess if the first part is empty). *)
Theorem accuracy_vector_app fuel v divs divs' g :
  Z.of_nat (length (divs ++ divs')) < 2 ^ 32 ->
  accuracy_vector fuel v (divs ++ divs') g
  = out ← accuracy_vector fuel v divs g;
    out' ← accuracy_vector fuel v divs' (default g (last out));
    Some (out ++ out').
Proof.
  intros Hsmall. rewrite length_app in Hsmall.
  rewrite !accuracy_vector_small by (rewrite ?length_app; lia).
  rewrite stages_app. destruct (stages fuel v divs g) as [out|]; [|done].
  simpl. by rewrite accuracy_vector_small by lia.
Qed.

(** X5: the bounds found for the first divisors do not depend on the
    divisors that follow: on the first [k] divisors the function returns
    the first [k] elements of what it returns on all of them. *)
Theorem accuracy_vector_take fuel v divs g out k :
  Z.of_nat (length divs) < 2 ^ 32 ->
  accuracy_vector fuel v divs g = Some out ->
  accuracy_vector fuel v (take k divs) g = Some (take k out).
Proof.
  intros Hsmall. pose proof (length_take divs k) as Hlen.
  rewrite !accuracy_vector_small by lia.
  rewrite <-(take_drop k divs) at 1. rewrite stages_app.
  destruct (stages fuel v (take k divs) g) as [out1|] eqn:H1; [|done]. simpl.
  destruct (stages fuel v (drop k divs) _) as [out2|] eqn:H2; [|done]. simpl.
  intros [= <-]. apply stages_spec in H1 as [Hlen1 _].
  apply stages_spec in H2 as [Hlen2 _]. rewrite length_drop in Hlen2.
  f_equal. destruct (Nat.le_gt_cases k (length divs)).
  - rewrite take_app_le by lia. rewrite take_ge; [done|lia].
  - rewrite take_ge; [|rewrite length_app; lia].
    assert (out2 = []) as -> by (apply nil_length_inv; lia).
    by rewrite app_nil_r.
Qed.

(** X7: of a vector of any size, [accuracy_vector] handles the first
    [size mod 2^32] divisors and nothing more: it returns what it returns
    on that part alone, one element for each of its divisors. *)
Theorem accuracy_vector_handles_prefix fuel v divs g :
  accuracy_vector fuel v divs g
    = accuracy_vector fuel v (take (handled divs) divs) g /\
  forall out, accuracy_vector fuel v divs g = Some out ->
              Z.of_nat (length out) = Z.of_nat (length divs) mod 2 ^ 32.
Proof.
  pose proof (handled_le divs) as Hle.
  pose proof (to_unsigned_range (Z.of_nat (length divs))) as Hr.
  split.
  - rewrite (accuracy_vector_small _ _ (take _ _)).
    + apply accuracy_vector_stages.
    + rewrite length_take_le by done. unfold handled. lia.
  - intros out ->%accuracy_vector_length. unfold handled.
    unfold to_unsigned in *. lia.
Qed.
End TemplateExtras.

(** * Division by two in a binary format *)

Lemma div_eucl_unique a b q r :
  0 <= r < b -> a = b * q + r -> Z.div_eucl a b = (q, r).
Proof.
  intros Hr Ha.
  pose proof (Z.div_unique_pos a b q r Hr Ha) as Hq.
  pose proof (Z.mod_unique_pos a b q r Hr Ha) as Hm.
  unfold Z.div, Z.modulo in *. destruct (Z.div_eucl a b). congruence.
Qed.

(** The format has at least two bits of precision; [mt] is the mantissa of
    the number 2 in it. *)
Section Halving.
Variables prec emax : Z.
Variable mt : positive.
Hypothesis Hprec : 2 <= prec.
Hypothesis Hmt : Z.pos mt = 2 ^ (prec - 1).
Hypothesis Hdt : Z.pos (digits2_pos mt) = prec.

Lemma fexp_eq e : fexp prec emax e = Z.max (e - prec) (emin prec emax).
Proof. done. Qed.

Lemma emin_eq : emin prec emax = 3 - emax - prec.
Proof. done. Qed.

(** Rounding a number that is a value of the format returns it. *)
Lemma binary_round_aux_canonical sx m e :
  bounded prec emax m e = true ->
  binary_round_aux prec emax sx (Z.pos m) e loc_Exact = S754_finite sx m e.
Proof.
  unfold bounded, canonical_mantissa.
  intros [Hc He]%andb_prop. apply Z.eqb_eq in Hc. apply Z.leb_le in He.
  unfold binary_round_aux, shr_fexp. cbn [Zdigits2].
  rewrite Hc, Z.sub_diag. cbn [shr shr_record_of_loc shr_m loc_of_shr_record round_nearest_even].
  cbn [Zdigits2]. rewrite Hc, Z.sub_diag. cbn [shr shr_record_of_loc shr_m].
  by rewrite (proj2 (Z.leb_le _ _) He).
Qed.

Lemma shift_case (m s : Z) :
  0 <= s ->
  match s with Z.pos _ => Z.shiftl m s | Z0 => m | Z.neg _ => 0 end = m * 2 ^ s.
Proof.
  intros Hs. destruct s as [|p|p]; [lia| |lia].
  apply Z.shiftl_mul_pow2. lia.
Qed.

Lemma mt_even : Z.even (Z.pos mt) = true.
Proof.
  rewrite Hmt. replace (prec - 1) with (Z.succ (prec - 2)) by lia.
  rewrite Z.pow_succ_r by lia. apply Z.even_mul.
Qed.

Lemma SFdiv_core_two m e q r :
  let e' := Z.max (Z.pos (digits2_pos m) + e - 2 - prec) (emin prec emax) in
  emin prec emax <= e ->
  Z.pos (digits2_pos m) <= prec ->
  0 <= r < 2 ^ (prec - 1) ->
  Z.pos m * 2 ^ (e + prec - 2 - e') = 2 ^ (prec - 1) * q + r ->
  SFdiv_core_binary prec emax (Z.pos m) e (Z.pos mt) (2 - prec)
  = (q, e', new_location (Z.pos mt) r).
Proof.
  intros e' He Hd Hr Hq. unfold SFdiv_core_binary. cbn [Zdigits2]. rewrite Hdt.
  rewrite fexp_eq.
  replace (Z.min _ _) with e' by (unfold e'; lia).
  rewrite shift_case by (unfold e'; lia).
  replace (e - (2 - prec) - e') with (e + prec - 2 - e') by lia.
  rewrite (div_eucl_unique _ (Z.pos mt) q r); [done|by rewrite Hmt|by rewrite Hmt].
Qed.

Lemma new_location_two_exact : new_location (Z.pos mt) 0 = loc_Exact.
Proof. unfold new_location. by rewrite mt_even. Qed.

Lemma new_location_two_half :
  new_location (Z.pos mt) (2 ^ (prec - 2)) = loc_Inexact Eq.
Proof.
  unfold new_location. rewrite mt_even. unfold new_location_even.
  assert (0 < 2 ^ (prec - 2)) by (apply Z.pow_pos_nonneg; lia).
  destruct (Z.eqb_spec (2 ^ (prec - 2)) 0) as [?|_]; [lia|].
  rewrite Hmt. replace (prec - 1) with (Z.succ (prec - 2)) by lia.
  rewrite Z.pow_succ_r by lia. by rewrite Z.compare_refl.
Qed.

Lemma bounded_inv m e :
  bounded prec emax m e = true ->
  Z.max (Z.pos (digits2_pos m) + e - prec) (emin prec emax) = e /\
  e <= emax - prec.
Proof.
  unfold bounded, canonical_mantissa. rewrite fexp_eq.
  intros [Hc He]%andb_prop. apply Z.eqb_eq in Hc. apply Z.leb_le in He. done.
Qed.

Lemma bounded_intro m e :
  Z.max (Z.pos (digits2_pos m) + e - prec) (emin prec emax) = e ->
  e <= emax - prec -> bounded prec emax m e = true.
Proof.
  intros Hc He. unfold bounded, canonical_mantissa. rewrite fexp_eq.
  apply andb_true_intro. split; [by apply Z.eqb_eq|by apply Z.leb_le].
Qed.

(** Above the lowest exponent, halving lowers the exponent by one. *)
Lemma SFdiv_two_normal s m e :
  bounded prec emax m e = true -> emin prec emax < e ->
  SFdiv prec emax (S754_finite s m e) (S754_finite false mt (2 - prec))
  = S754_finite s m (e - 1).
Proof.
  intros Hb He. pose proof Hb as [Hc Hle]%bounded_inv.
  assert (Z.pos (digits2_pos m) = prec) as Hd by lia.
  pose proof emin_eq as Hemin.
  cbn [SFdiv]. rewrite xorb_false_r.
  destruct (Z.eq_dec e (emin prec emax + 1)) as [->|Hne].
  - rewrite (SFdiv_core_two m _ (Z.pos m) 0); [|lia|lia| |].
    + rewrite new_location_two_exact.
      replace (Z.max _ _) with (emin prec emax) by lia.
      rewrite binary_round_aux_canonical; [f_equal; lia|].
      apply bounded_intro; lia.
    + split; [lia|]. apply Z.pow_pos_nonneg; lia.
    + replace (Z.max _ _) with (emin prec emax) by lia.
      replace (emin prec emax + 1 + prec - 2 - emin prec emax) with (prec - 1) by lia.
      lia.
  - rewrite (SFdiv_core_two m _ (Z.pos m~0) 0); [|lia|lia| |].
    + rewrite new_location_two_exact.
      replace (Z.max _ _) with (e - 2) by lia.
      unfold binary_round_aux, shr_fexp. cbn [Zdigits2 digits2_pos].
      rewrite Pos2Z.inj_succ, Hd, fexp_eq.
      replace (Z.max _ _ - (e - 2)) with 1 by lia.
      cbn [shr shr_record_of_loc iter_pos shr_1 orb shr_m loc_of_shr_record
           round_nearest_even Zdigits2].
      rewrite Hd, fexp_eq.
      replace (Z.max _ _ - (e - 2 + 1)) with 0 by lia.
      cbn [shr shr_record_of_loc shr_m].
      destruct (Z.leb_spec (e - 2 + 1) (emax - prec)); [f_equal; lia|lia].
    + split; [lia|]. apply Z.pow_pos_nonneg; lia.
    + replace (Z.max _ _) with (e - 2) by lia.
      replace (e + prec - 2 - (e - 2)) with (Z.succ (prec - 1)) by lia.
      rewrite Z.pow_succ_r by lia. lia.
Qed.

Lemma digits2_pos_succ p :
  Z.pos (digits2_pos (Pos.succ p)) <= Z.pos (digits2_pos p) + 1.
Proof.
  induction p as [p IH|p _|].
  - change (Z.pos (Pos.succ (digits2_pos (Pos.succ p)))
            <= Z.pos (Pos.succ (digits2_pos p)) + 1).
    rewrite !Pos2Z.inj_succ. lia.
  - change (Z.pos (Pos.succ (digits2_pos p))
            <= Z.pos (Pos.succ (digits2_pos p)) + 1).
    lia.
  - change (2 <= 2). lia.
Qed.

(** At the lowest exponent, halving halves the mantissa and rounds a
    remaining half to the even neighbour. *)
Lemma SFdiv_two_floor s m :
  bounded prec emax m (emin prec emax) = true ->
  SFdiv prec emax (S754_finite s m (emin prec emax))
    (S754_finite false mt (2 - prec))
  = match m with
    | xH => S754_zero s
    | xO p => S754_finite s p (emin prec emax)
    | xI p =>
        S754_finite s (if Z.even (Z.pos p) then p else Pos.succ p)
          (emin prec emax)
    end.
Proof.
  intros [Hc Hle]%bounded_inv. pose proof emin_eq as Hemin.
  assert (0 < 2 ^ (prec - 2)) as Hpow by (apply Z.pow_pos_nonneg; lia).
  assert (2 ^ (prec - 1) = 2 * 2 ^ (prec - 2)) as Hpow'.
  { replace (prec - 1) with (Z.succ (prec - 2)) by lia.
    by rewrite Z.pow_succ_r by lia. }
  assert (forall q r, 0 <= r < 2 ^ (prec - 1) ->
            Z.pos m * 2 ^ (prec - 2) = 2 ^ (prec - 1) * q + r ->
            SFdiv_core_binary prec emax (Z.pos m) (emin prec emax)
              (Z.pos mt) (2 - prec)
            = (q, emin prec emax, new_location (Z.pos mt) r)) as Hcore.
  { intros q r Hr Hq.
    rewrite (SFdiv_core_two m _ q r); [|lia|lia|done|].
    - by replace (Z.max _ _) with (emin prec emax) by lia.
    - replace (Z.max _ _) with (emin prec emax) by lia.
      by replace (emin prec emax + prec - 2 - emin prec emax)
        with (prec - 2) by lia. }
  cbn [SFdiv]. rewrite xorb_false_r. destruct m as [p|p|].
  - cbn [digits2_pos] in Hc. rewrite Pos2Z.inj_succ in Hc.
    rewrite (Hcore (Z.pos p) (2 ^ (prec - 2))); [|lia|lia].
    rewrite new_location_two_half.
    unfold binary_round_aux, shr_fexp. cbn [Zdigits2]. rewrite fexp_eq.
    replace (Z.max _ _ - emin prec emax) with 0 by lia.
    cbn [shr shr_record_of_loc shr_m loc_of_shr_record round_nearest_even].
    destruct (Z.even (Z.pos p)).
    + cbn [Zdigits2]. rewrite fexp_eq.
      replace (Z.max _ _ - emin prec emax) with 0 by lia.
      cbn [shr shr_record_of_loc shr_m].
      destruct (Z.leb_spec (emin prec emax) (emax - prec)); [done|lia].
    + replace (Z.pos p + 1) with (Z.pos (Pos.succ p)) by lia.
      pose proof (digits2_pos_succ p).
      cbn [Zdigits2]. rewrite fexp_eq.
      replace (Z.max _ _ - emin prec emax) with 0 by lia.
      cbn [shr shr_record_of_loc shr_m].
      destruct (Z.leb_spec (emin prec emax) (emax - prec)); [done|lia].
  - cbn [digits2_pos] in Hc. rewrite Pos2Z.inj_succ in Hc.
    rewrite (Hcore (Z.pos p) 0); [|lia|lia].
    rewrite new_location_two_exact, binary_round_aux_canonical; [done|].
    apply bounded_intro; lia.
  - rewrite (Hcore 0 (2 ^ (prec - 2))); [|lia|lia].
    rewrite new_location_two_half.
    unfold binary_round_aux, shr_fexp. cbn [Zdigits2]. rewrite fexp_eq.
    replace (Z.max _ _ - emin prec emax) with 0 by lia.
    cbn [shr shr_record_of_loc shr_m loc_of_shr_record round_nearest_even
         Z.even Zdigits2].
    rewrite fexp_eq.
    replace (Z.max _ _ - emin prec emax) with 0 by lia.
    done.
Qed.

#[local] Abbreviation two := (two_of prec emax mt).

(** Halving a finite value gives zero or a value of lower rank. *)
Lemma SFdiv_two_shrinks s m e :
  bounded prec emax m e = true ->
  let y := SFdiv prec emax (S754_finite s m e) (sf two) in
  finite_value prec emax y = true /\
  (is_zero y = true \/
   (rank (emin prec emax) y < rank (emin prec emax) (S754_finite s m e))%nat).
Proof.
  intros Hb y. pose proof Hb as [Hc Hle]%bounded_inv.
  pose proof emin_eq as Hemin.
  destruct (Z.eq_dec e (emin prec emax)) as [->|Hne].
  - subst y. cbn [sf two_of]. rewrite SFdiv_two_floor by done.
    destruct m as [p|p|]; cbn [digits2_pos] in Hc;
      rewrite ?Pos2Z.inj_succ in Hc.
    + pose proof (digits2_pos_succ p).
      split; [|right; cbn [rank]; destruct (Z.even (Z.pos p)); lia].
      cbn [finite_value]. apply bounded_intro; [|lia].
      destruct (Z.even (Z.pos p)); lia.
    + split; [|right; cbn [rank]; lia].
      cbn [finite_value]. apply bounded_intro; lia.
    + split; [done|by left].
  - subst y. cbn [sf two_of]. rewrite SFdiv_two_normal by (done || lia).
    split; [|right; cbn [rank]; lia].
    cbn [finite_value]. apply bounded_intro; lia.
Qed.

(** Halving again and again, a finite guess reaches zero. *)
Lemma halving_reaches_zero (g : bfloat prec emax) :
  finite_value prec emax (sf g) = true ->
  exists n, is_zero (sf (divide n two g)) = true.
Proof.
  remember (rank (emin prec emax) (sf g)) as k eqn:Hk.
  revert g Hk. induction (lt_wf k) as [k _ IH]. intros [x] -> Hfin.
  destruct x as [s| | |s m e]; cbn [sf finite_value] in *; try done.
  { by exists O. }
  destruct (SFdiv_two_shrinks s m e Hfin) as [Hfin' [Hz|Hlt]].
  - by exists 1%nat.
  - destruct (IH _ Hlt (bf_div (BFloat (S754_finite s m e)) two) eq_refl Hfin')
      as [n Hn].
    by exists (S n).
Qed.

(** Zero added to a value that is not NaN leaves it as it was. *)
Lemma zero_absorbed (v z : bfloat prec emax) :
  is_nan (sf v) = false -> is_zero (sf z) = true -> significant v z = false.
Proof.
  destruct v as [x], z as [y]. cbn [sf]. intros Hv Hz.
  destruct y as [sy| | |]; try done.
  unfold significant. cbn [fne fadd bfloat_type]. unfold bf_ne, bf_add.
  cbn [sf]. apply negb_false_iff.
  destruct x as [sx|sx| |sx m e]; try done.
  - by destruct sx, sy.
  - by destruct sx.
  - unfold SFeqb. cbn [SFadd SFcompare].
    by destruct sx; rewrite Z.compare_refl, Pos.compare_cont_refl.
Qed.

(** With divisor 2, [accuracy_bound] returns for every value other than
    NaN and every finite initial guess. *)
Lemma halving_terminates (v g : bfloat prec emax) :
  is_nan (sf v) = false -> finite_value prec emax (sf g) = true ->
  exists fuel r, accuracy_bound fuel v two g = Some r.
Proof.
  intros Hv Hg. destruct (halving_reaches_zero g Hg) as [n Hn].
  destruct (while_loop_reaches n v two g) as [e He].
  { by apply zero_absorbed. }
  exists (S n), (fmul e two). apply accuracy_bound_exit. by exists e.
Qed.
End Halving.

(** * NaN and the infinities *)

Section SpecialValues.
Variables prec emax : Z.
Implicit Types (v d g x : bfloat prec emax) (fuel n : nat).

Lemma divide_nan n d g :
  is_nan (sf g) = true -> is_nan (sf (divide n d g)) = true.
Proof.
  revert g. induction n as [|n IH]; intros g Hg; [done|].
  simpl. apply IH. destruct g as [[]]; done.
Qed.

Lemma significant_nan v x :
  is_nan (sf v) || is_nan (sf x) = true -> significant v x = true.
Proof.
  destruct v as [[]], x as [[]]; try done;
    unfold significant; cbn; by repeat case_match.
Qed.

(** X8: a NaN for the value or for the initial guess keeps the loop test
    true for ever: [accuracy_bound] never returns, whatever the divisor. *)
Theorem accuracy_bound_nan_diverges v d g :
  is_nan (sf v) || is_nan (sf g) = true ->
  forall fuel, accuracy_bound fuel v d g = None.
Proof.
  intros Hnan fuel. unfold accuracy_bound.
  rewrite while_loop_diverges; [done|]. intros n. apply significant_nan.
  apply orb_true_iff in Hnan as [Hv|Hg]; apply orb_true_iff; [by left|].
  right. by apply divide_nan.
Qed.

(** X9: an infinite value absorbs every finite guess: the loop body never
    runs and [accuracy_bound] returns the initial guess times the
    divisor. *)
Theorem accuracy_bound_infinite_value fuel v d g :
  is_infinity (sf v) = true -> is_finite (sf g) = true ->
  iterations (S fuel) v d g = Some O /\
  accuracy_bound (S fuel) v d g = Some (fmul g d).
Proof.
  intros Hv Hg.
  assert (significant v g = false) as Habs.
  { destruct v as [[| [] | |]], g as [[]]; done. }
  split.
  - apply iterations_exit. split_and!; [lia|done|intros; lia].
  - apply accuracy_bound_exit. exists g. split; [|done].
    apply while_loop_exit. exists O. split_and!; [lia|done|done|intros; lia].
Qed.

(** X10: an infinite divisor, although above 1, gives NaN: a finite
    guess that passes the loop test is divided to zero, which a value
    other than NaN absorbs, and zero times the infinite divisor is NaN. *)
Theorem accuracy_bound_infinite_divisor fuel v d g :
  is_nan (sf v) = false -> is_finite (sf g) = true ->
  is_infinity (sf d) = true -> significant v g = true ->
  iterations (S (S fuel)) v d g = Some 1%nat /\
  accuracy_bound (S (S fuel)) v d g = Some (BFloat S754_nan).
Proof.
  intros Hv Hg Hd Hsig.
  assert (is_zero (sf (fdiv g d)) = true) as Hz.
  { destruct g as [[]], d as [[]]; done. }
  pose proof (zero_absorbed prec emax v (fdiv g d) Hv Hz) as Habs.
  assert (forall k, (k < 1)%nat -> significant v (divide k d g) = true) as Hk.
  { intros k ?. by replace k with O by lia. }
  split.
  - apply iterations_exit. split_and!; [lia|done|done].
  - apply accuracy_bound_exit. exists (fdiv g d). split.
    + apply while_loop_exit. exists 1%nat. split_and!; [lia|done..].
    + destruct g as [[]], d as [[]]; done.
Qed.
End SpecialValues.

(** * Rounding in a binary format *)

(** ** Shift records *)

Lemma pow2_pos k : 0 <= k -> 0 < 2 ^ k.
Proof. intros. apply Z.pow_pos_nonneg; lia. Qed.

Lemma pow2_xO' p : 2 ^ Z.pos p~0 = 2 ^ Z.pos p * 2 ^ Z.pos p.
Proof. rewrite <-Z.pow_add_r by lia. f_equal. lia. Qed.

Lemma pow2_xI' p : 2 ^ Z.pos p~1 = 2 * (2 ^ Z.pos p * 2 ^ Z.pos p).
Proof. rewrite <-Z.pow_add_r, <-Z.pow_succ_r by lia. f_equal. lia. Qed.

Lemma record_of_shr_1 A U mrs :
  record_of A U mrs -> record_of A (2 * U) (shr_1 mrs).
Proof.
  destruct mrs as [m r s]. unfold record_of. cbn [shr_m shr_r shr_s].
  intros (HU & Hm & rem & Hrem & HA & Hr & Hs).
  assert (r || s = true <-> rem <> 0) as Hrs.
  { rewrite orb_true_iff, Hr, Hs. lia. }
  destruct m as [|[p|p|]|p]; [| | | |lia]; cbn [shr_1 shr_m shr_r shr_s].
  - split; [lia|]. split; [lia|]. exists rem. rewrite Hrs.
    split; [lia|]. split; [lia|]. split; [split; [done|lia]|lia].
  - split; [lia|]. split; [lia|]. exists (U + rem). rewrite Hrs.
    split; [lia|]. split; [lia|]. split; [split; [lia|done]|lia].
  - split; [lia|]. split; [lia|]. exists rem. rewrite Hrs.
    split; [lia|]. split; [lia|]. split; [split; [done|lia]|lia].
  - split; [lia|]. split; [lia|]. exists (U + rem). rewrite Hrs.
    split; [lia|]. split; [lia|]. split; [split; [lia|done]|lia].
Qed.

Lemma record_of_iter_pos p A U mrs :
  record_of A U mrs -> record_of A (U * 2 ^ Z.pos p) (iter_pos shr_1 p mrs).
Proof.
  revert U mrs. induction p as [p IH|p IH|]; intros U mrs Hrec; cbn [iter_pos].
  - rewrite pow2_xI'.
    replace (U * (2 * (2 ^ Z.pos p * 2 ^ Z.pos p)))
      with (2 * U * 2 ^ Z.pos p * 2 ^ Z.pos p) by lia.
    by apply IH, IH, record_of_shr_1.
  - rewrite pow2_xO', Z.mul_assoc. by apply IH, IH.
  - replace (U * 2 ^ 1) with (2 * U) by lia. by apply record_of_shr_1.
Qed.

(** [shr] shifts by [n] when [n] is positive and not at all otherwise. *)
Lemma record_of_shr A U mrs e n :
  record_of A U mrs ->
  record_of A (U * 2 ^ Z.max n 0) (fst (shr mrs e n)) /\
  snd (shr mrs e n) = e + Z.max n 0.
Proof.
  intros Hrec. destruct n as [|p|p]; cbn [shr fst snd].
  - replace (Z.max 0 0) with 0 by lia. rewrite Z.mul_1_r. split; [done|lia].
  - replace (Z.max (Z.pos p) 0) with (Z.pos p) by lia.
    split; [by apply record_of_iter_pos|done].
  - replace (Z.max (Z.neg p) 0) with 0 by lia. rewrite Z.mul_1_r.
    split; [done|lia].
Qed.

(** ** Digits *)

Lemma digits2_pos_bounds p :
  2 ^ (Z.pos (digits2_pos p) - 1) <= Z.pos p < 2 ^ Z.pos (digits2_pos p).
Proof.
  induction p as [p IH|p IH|].
  - change (digits2_pos p~1) with (Pos.succ (digits2_pos p)).
    rewrite Pos2Z.inj_succ, Z.pow_succ_r by lia.
    replace (Z.succ (Z.pos (digits2_pos p)) - 1)
      with (Z.succ (Z.pos (digits2_pos p) - 1)) by lia.
    rewrite Z.pow_succ_r by lia. lia.
  - change (digits2_pos p~0) with (Pos.succ (digits2_pos p)).
    rewrite Pos2Z.inj_succ, Z.pow_succ_r by lia.
    replace (Z.succ (Z.pos (digits2_pos p)) - 1)
      with (Z.succ (Z.pos (digits2_pos p) - 1)) by lia.
    rewrite Z.pow_succ_r by lia. lia.
  - change (2 ^ 0 <= 1 < 2 ^ 1). lia.
Qed.

Lemma Zdigits2_nonneg a : 0 <= a -> 0 <= Zdigits2 a.
Proof. destruct a; simpl; lia. Qed.

Lemma Zdigits2_bounds a :
  0 < a -> 2 ^ (Zdigits2 a - 1) <= a < 2 ^ Zdigits2 a.
Proof. destruct a as [|p|p]; [lia| |lia]. intros _. apply digits2_pos_bounds. Qed.

Lemma Zdigits2_pos a : 0 < a -> 0 < Zdigits2 a.
Proof. destruct a; simpl; lia. Qed.

(** Powers of two compare as their exponents. *)
Lemma pow2_lt_inv a b : 0 <= b -> 2 ^ a < 2 ^ b -> a < b.
Proof.
  intros Hb Hlt. destruct (Z.lt_ge_cases a b) as [|Hge]; [done|].
  pose proof (Z.pow_le_mono_r 2 b a ltac:(lia) Hge). lia.
Qed.

Lemma pow2_le a b : a <= b -> 0 <= b -> 2 ^ a <= 2 ^ b.
Proof.
  intros Hab Hb. destruct (Z.lt_ge_cases a 0).
  - rewrite (Z.pow_neg_r 2 a) by lia. apply Z.pow_nonneg. lia.
  - apply Z.pow_le_mono_r; lia.
Qed.

Lemma pow2_lt a b : a < b -> 0 <= b -> 2 ^ a < 2 ^ b.
Proof.
  intros Hab Hb. destruct (Z.lt_ge_cases a 0).
  - rewrite (Z.pow_neg_r 2 a) by lia. apply Z.pow_pos_nonneg; lia.
  - apply Z.pow_lt_mono_r; lia.
Qed.

Lemma Zdigits2_le_of_lt a k : 0 <= a -> 0 <= k -> a < 2 ^ k -> Zdigits2 a <= k.
Proof.
  intros Ha Hk Hlt. destruct (Z.eq_dec a 0) as [->|Hne]; [simpl; lia|].
  pose proof (Zdigits2_bounds a ltac:(lia)) as [Hlo _].
  assert (2 ^ (Zdigits2 a - 1) < 2 ^ k) as H by lia.
  apply pow2_lt_inv in H; lia.
Qed.

Lemma Zdigits2_ge_of_le a k : 2 ^ k <= a -> 0 <= k -> k + 1 <= Zdigits2 a.
Proof.
  intros Hle Hk.
  assert (0 < a) as Ha by (pose proof (pow2_pos k Hk); lia).
  pose proof (Zdigits2_bounds a Ha) as [_ Hhi].
  assert (2 ^ k < 2 ^ Zdigits2 a) as H by lia.
  apply pow2_lt_inv in H; [lia|]. apply Zdigits2_nonneg. lia.
Qed.

Lemma Zdigits2_mono a b : 0 <= a <= b -> Zdigits2 a <= Zdigits2 b.
Proof.
  intros [Ha Hab]. destruct (Z.eq_dec b 0) as [->|Hb].
  { by replace a with 0 by lia. }
  apply Zdigits2_le_of_lt; [done|apply Zdigits2_nonneg; lia|].
  pose proof (Zdigits2_bounds b ltac:(lia)). lia.
Qed.

(** The digits of a quotient by a power of two. *)
Lemma Zdigits2_div_pow2 a k :
  0 < a -> 0 <= k < Zdigits2 a -> Zdigits2 (a / 2 ^ k) = Zdigits2 a - k.
Proof.
  intros Ha Hk. pose proof (Zdigits2_bounds a Ha) as [Hlo Hhi].
  pose proof (pow2_pos k ltac:(lia)) as Hpk.
  assert (2 ^ (Zdigits2 a - 1 - k) <= a / 2 ^ k) as Hlo'.
  { apply Z.div_le_lower_bound; [done|].
    rewrite <-Z.pow_add_r by lia.
    replace (k + (Zdigits2 a - 1 - k)) with (Zdigits2 a - 1) by lia. done. }
  assert (a / 2 ^ k < 2 ^ (Zdigits2 a - k)) as Hhi'.
  { apply Z.div_lt_upper_bound; [done|].
    rewrite <-Z.pow_add_r by lia.
    replace (k + (Zdigits2 a - k)) with (Zdigits2 a) by lia. done. }
  apply Z.le_antisymm.
  - apply Zdigits2_le_of_lt; [|lia|done].
    apply Z.div_pos; lia.
  - apply Zdigits2_ge_of_le in Hlo'; lia.
Qed.

Lemma Zdigits2_mul_pow2 a k :
  0 < a -> 0 <= k -> Zdigits2 (a * 2 ^ k) = Zdigits2 a + k.
Proof.
  intros Ha Hk. pose proof (Zdigits2_bounds a Ha) as [Hlo Hhi].
  pose proof (pow2_pos k Hk) as Hpk.
  pose proof (Zdigits2_pos a Ha) as Hd.
  apply Z.le_antisymm.
  - apply Zdigits2_le_of_lt; [lia|lia|].
    rewrite Z.pow_add_r by lia. apply Z.mul_lt_mono_pos_r; lia.
  - assert (2 ^ (Zdigits2 a - 1 + k) <= a * 2 ^ k) as H.
    { rewrite Z.pow_add_r by lia. apply Z.mul_le_mono_nonneg_r; lia. }
    apply Zdigits2_ge_of_le in H; lia.
Qed.

(** ** Rounding to nearest *)

(** The location [SFdiv_core_binary] computes for a remainder [r] of a
    division by [d]. *)
Lemma record_of_new_location q d r :
  0 <= q -> 0 <= r < d ->
  record_of (q * d + r) d (shr_record_of_loc q (new_location d r)).
Proof.
  intros Hq Hr. unfold record_of.
  assert (forall b1 b2 : bool,
    (b1 = true <-> d <= 2 * r) -> (b2 = true <-> r <> 0 /\ 2 * r <> d) ->
    0 < d /\ 0 <= q /\
    exists rem, 0 <= rem < d /\ q * d + r = q * d + rem /\
                (b1 = true <-> d <= 2 * rem) /\
                (b2 = true <-> rem <> 0 /\ 2 * rem <> d)) as Hgen.
  { intros b1 b2 H1 H2. split; [lia|]. split; [done|]. by exists r. }
  unfold new_location. destruct (Z.even d) eqn:Heven.
  - unfold new_location_even. destruct (Z.eqb_spec r 0) as [->|Hne].
    + simpl. apply Hgen; split; (done || lia).
    + destruct (Z.compare_spec (2 * r) d) as [Heq|Hlt|Hgt]; simpl;
        apply Hgen; split; (done || lia).
  - assert (Z.odd d = true) as Hodd by (rewrite <-Z.negb_even, Heven; done).
    apply Z.odd_spec in Hodd as [k Hk].
    unfold new_location_odd. destruct (Z.eqb_spec r 0) as [->|Hne].
    + simpl. apply Hgen; split; (done || lia).
    + destruct (Z.compare_spec (2 * r + 1) d) as [Heq|Hlt|Hgt]; simpl;
        apply Hgen; split; (done || lia).
Qed.

(** A number counted exactly. *)
Lemma record_of_exact m :
  0 <= m -> record_of m 1 (shr_record_of_loc m loc_Exact).
Proof.
  intros Hm. unfold record_of. simpl. split; [lia|]. split; [done|].
  exists 0. split; [lia|]. split; [lia|]. split; split; (done || lia).
Qed.

(** Rounding to nearest, ties to even, of a number [A] counted in units
    [U]: the result is the quotient or the next integer, the latter only
    from half a unit on, and from zero only above half a unit. *)
Lemma round_nearest_even_spec A U mrs :
  record_of A U mrs ->
  let m := shr_m mrs in
  let m' := round_nearest_even m (loc_of_shr_record mrs) in
  0 <= m /\ m * U <= A < (m + 1) * U /\
  (m' = m \/ m' = m + 1) /\
  (m' = m -> 2 * A <= (2 * m + 1) * U) /\
  (m' = m + 1 -> (2 * m + 1) * U <= 2 * A) /\
  (m' = m + 1 -> m = 0 -> U < 2 * A).
Proof.
  destruct mrs as [m r s]. unfold record_of. cbn [shr_m shr_r shr_s].
  intros (HU & Hm & rem & Hrem & -> & Hr & Hs).
  split; [done|]. split; [nia|].
  destruct r, s; cbn [loc_of_shr_record round_nearest_even].
  - assert (d1 : U <= 2 * rem) by (by apply Hr).
    split; [by right|]. split; [lia|]. split; [nia|].
    intros _ ->. assert (rem <> 0 /\ 2 * rem <> U) by (by apply Hs). lia.
  - assert (d1 : U <= 2 * rem) by (by apply Hr).
    assert (2 * rem = U).
    { destruct (Z.eq_dec (2 * rem) U) as [|Hne]; [done|].
      assert (false = true) by (apply Hs; lia). done. }
    destruct (Z.even m) eqn:Heven.
    + split; [by left|]. split; [nia|]. split; [lia|]. lia.
    + split; [by right|]. split; [lia|]. split; [nia|].
      intros _ ->. done.
  - assert (~ U <= 2 * rem) by (intros Hle; by apply Hr in Hle).
    split; [by left|]. split; [nia|]. split; [lia|]. lia.
  - assert (~ U <= 2 * rem) by (intros Hle; by apply Hr in Hle).
    split; [by left|]. split; [nia|]. split; [lia|]. lia.
Qed.

Section Rounding.
Variables prec emax : Z.

#[local] Abbreviation fexp := (fexp prec emax).

Lemma fexp_mono a b : a <= b -> fexp a <= fexp b.
Proof. unfold SpecFloat.fexp. lia. Qed.

Lemma fexp_ge_emin a : emin prec emax <= fexp a.
Proof. unfold SpecFloat.fexp. lia. Qed.

(** [binary_round_aux] on a mantissa and location that count [A] in
    units [U]: a first shift by [n] and a rounding give [m'], a second
    shift by [n'] the result. *)
Lemma binary_round_aux_spec A U sx mx ex lx :
  record_of A U (shr_record_of_loc mx lx) ->
  let n := Z.max (fexp (Zdigits2 mx + ex) - ex) 0 in
  exists m m',
    0 <= m /\ m * (U * 2 ^ n) <= A < (m + 1) * (U * 2 ^ n) /\
    (m' = m \/ m' = m + 1) /\
    (m' = m -> 2 * A <= (2 * m + 1) * (U * 2 ^ n)) /\
    (m' = m + 1 -> (2 * m + 1) * (U * 2 ^ n) <= 2 * A) /\
    (m' = m + 1 -> m = 0 -> U * 2 ^ n < 2 * A) /\
    m * 2 ^ n <= mx < (m + 1) * 2 ^ n /\
    let e' := ex + n in
    let n' := Z.max (fexp (Zdigits2 m' + e') - e') 0 in
    binary_round_aux prec emax sx mx ex lx =
      match m' / 2 ^ n' with
      | 0 => S754_zero sx
      | Z.pos p => if e' + n' <=? emax - prec
                   then S754_finite sx p (e' + n') else S754_infinity sx
      | Z.neg _ => S754_nan
      end.
Proof.
  intros Hrec n.
  assert (0 <= n) as Hn by lia.
  pose proof (pow2_pos n Hn) as Hpn.
  destruct (record_of_shr _ _ _ ex (fexp (Zdigits2 mx + ex) - ex) Hrec)
    as [Hrec1 He1]. fold n in Hrec1, He1.
  pose proof (round_nearest_even_spec _ _ _ Hrec1)
    as (Hm & HA & Hm' & Hdown & Hup & Hup0).
  unfold binary_round_aux, shr_fexp.
  destruct (shr (shr_record_of_loc mx lx) ex _) as [mrs1 e1] eqn:E1.
  cbn [fst snd] in *. subst e1.
  set (m := shr_m mrs1) in *.
  set (m' := round_nearest_even m (loc_of_shr_record mrs1)) in *.
  exists m, m'. split; [done|]. split; [done|]. split; [done|].
  split; [done|]. split; [done|]. split; [done|].
  split.
  { destruct Hrec as (HU & Hmx & rem & Hrem & HAx & _).
    assert (shr_m (shr_record_of_loc mx lx) = mx) as Hsm
      by (destruct lx as [|[]]; done).
    rewrite Hsm in *. clear - HU Hrem HAx HA Hpn Hm Hmx. nia. }
  set (e' := ex + n).
  set (n' := Z.max (fexp (Zdigits2 m' + e') - e') 0).
  assert (0 <= m') as Hm'0 by lia.
  destruct (record_of_shr _ _ _ e' (fexp (Zdigits2 m' + e') - e')
              (record_of_exact m' Hm'0)) as [Hrec2 He2].
  fold n' in Hrec2, He2. rewrite Z.mul_1_l in Hrec2.
  destruct (shr (shr_record_of_loc m' loc_Exact) e' _) as [mrs2 e2] eqn:E2.
  cbn [fst snd] in *. subst e2.
  destruct Hrec2 as (HU2 & Hm2 & rem & Hrem & HA2 & _).
  assert (m' / 2 ^ n' = shr_m mrs2) as ->.
  { symmetry. apply (Z.div_unique _ _ _ rem); lia. }
  done.
Qed.
End Rounding.

(** * Division by a number above 1 in a binary format *)

(** ** Inequalities behind the division *)

(** The dividend is [A = m1 * c], the unit of the quotient is
    [m2 * a]; the divisor is [m2 * g / T], a unit of the dividend is
    [h] units of the quotient: [h * a * T = c * g]. *)
Section Quotient.
Variables m1 m2 a T c g h A : Z.
Hypothesis Hm1 : 0 < m1.
Hypothesis Hm2 : 0 < m2.
Hypothesis Ha : 0 < a.
Hypothesis HT : 0 < T.
Hypothesis Hc : 0 < c.
Hypothesis Hg : 0 < g.
Hypothesis Hh : 0 < h.
Hypothesis HA : A = m1 * c.
Hypothesis Hunits : h * a * T = c * g.

Lemma scaled_dividend : m1 * h * (m2 * a * T) = A * (m2 * g).
Proof. subst A. replace (m1 * h * (m2 * a * T)) with (m1 * m2 * (h * a * T)) by ring.
  rewrite Hunits. ring. Qed.

(** Above 1, the divisor brings the quotient below the dividend. *)
Lemma quotient_floor_below m :
  T < m2 * g -> m * (m2 * a) <= A -> m < m1 * h.
Proof.
  intros HD Hm.
  assert (0 < A) as HA0 by (subst A; nia).
  assert (0 < m2 * a * T) as Hpos by nia.
  assert (m * (m2 * a * T) < m1 * h * (m2 * a * T)) as Hlt.
  { rewrite scaled_dividend.
    assert (m * (m2 * a * T) <= A * T) by nia.
    assert (A * T < A * (m2 * g)) by nia. lia. }
  apply Z.mul_lt_mono_pos_r in Hlt; done.
Qed.

(** From 2 on, the divisor brings the rounded quotient below the
    dividend as well. *)
Lemma quotient_rounded_below m m' :
  2 * T <= m2 * g -> 0 <= m -> m * (m2 * a) <= A ->
  (m' = m \/ m' = m + 1) ->
  (m' = m + 1 -> (2 * m + 1) * (m2 * a) <= 2 * A) ->
  (m' = m + 1 -> m = 0 -> m2 * a < 2 * A) ->
  m' < m1 * h.
Proof.
  intros HD Hm0 Hm Hm' Hup Hup0.
  assert (0 < A) as HA0 by (subst A; nia).
  assert (0 < m2 * a) as HU by nia.
  assert (0 < m2 * a * T) as Hpos by nia.
  assert (m' * (m2 * a) < 2 * A) as Hcore.
  { destruct Hm' as [->| ->]; [lia|].
    destruct (Z.eq_dec m 0) as [->|Hne]; [by rewrite Z.mul_1_l; apply Hup0|].
    specialize (Hup eq_refl). nia. }
  assert (m' * (m2 * a * T) < m1 * h * (m2 * a * T)) as Hlt.
  { rewrite scaled_dividend.
    assert (m' * (m2 * a * T) < 2 * A * T) by nia.
    assert (2 * A * T <= A * (m2 * g)) by nia. lia. }
  apply Z.mul_lt_mono_pos_r in Hlt; done.
Qed.

(** Between 1 and 2, the divisor still does, when the dividend has the
    format's full precision: [2 * A] exceeds what a unit of the
    quotient is worth. *)
Lemma quotient_rounded_below_normal m m' :
  T < m2 * g -> m2 * a * T < 2 * A -> 0 <= m -> m * (m2 * a) <= A ->
  (m' = m \/ m' = m + 1) ->
  (m' = m + 1 -> (2 * m + 1) * (m2 * a) <= 2 * A) ->
  m' < m1 * h.
Proof.
  intros HD Hfine Hm0 Hm Hm' Hup.
  destruct Hm' as [->| ->]; [by apply quotient_floor_below|].
  specialize (Hup eq_refl).
  assert (0 < A) as HA0 by (subst A; nia).
  assert (0 < m2 * a * T) as Hpos by nia.
  assert (2 * ((m + 1) * (m2 * a * T)) < 2 * (m1 * h * (m2 * a * T))) as Hlt.
  { rewrite scaled_dividend.
    assert (2 * ((m + 1) * (m2 * a * T))
            = (2 * m + 1) * (m2 * a) * T + m2 * a * T) as -> by ring.
    assert ((2 * m + 1) * (m2 * a) * T <= 2 * A * T) by nia.
    assert (2 * A * T + 2 * A <= 2 * (A * (m2 * g))) by nia.
    lia. }
  apply Z.mul_lt_mono_pos_r with (p := m2 * a * T); [done|lia].
Qed.
End Quotient.



(** How many digits a quotient has at most. *)
Lemma quotient_digits_upper q m1 m2 s :
  0 < q -> 0 < m1 -> 0 < m2 -> 0 <= s ->
  q * m2 <= m1 * 2 ^ s ->
  Zdigits2 q + Zdigits2 m2 <= Zdigits2 m1 + s + 1.
Proof.
  intros Hq Hm1 Hm2 Hs Hle.
  pose proof (Zdigits2_bounds q Hq) as [Hq1 _].
  pose proof (Zdigits2_bounds m2 Hm2) as [Hd1 _].
  pose proof (Zdigits2_bounds m1 Hm1) as [_ Hn2].
  pose proof (Zdigits2_pos q Hq). pose proof (Zdigits2_pos m2 Hm2).
  pose proof (Zdigits2_pos m1 Hm1).
  pose proof (pow2_pos s Hs).
  assert (2 ^ (Zdigits2 q - 1 + (Zdigits2 m2 - 1)) < 2 ^ (Zdigits2 m1 + s)) as Hlt.
  { rewrite !Z.pow_add_r by lia.
    assert (2 ^ (Zdigits2 q - 1) * 2 ^ (Zdigits2 m2 - 1) <= q * m2)
      by (apply Z.mul_le_mono_nonneg; lia || (apply Z.pow_nonneg; lia)).
    assert (m1 * 2 ^ s < 2 ^ Zdigits2 m1 * 2 ^ s)
      by (apply Z.mul_lt_mono_pos_r; lia).
    lia. }
  apply pow2_lt_inv in Hlt; lia.
Qed.

(** How many digits what exceeds a quotient has at least. *)
Lemma quotient_digits_lower q k m1 m2 s :
  0 <= q -> 0 < m1 -> 0 < m2 -> 0 <= s -> 0 <= k ->
  m1 * 2 ^ s < (q + 1) * m2 -> q < 2 ^ k ->
  Zdigits2 m1 + s <= k + Zdigits2 m2.
Proof.
  intros Hq Hm1 Hm2 Hs Hk Hlt Hqk.
  pose proof (Zdigits2_bounds m2 Hm2) as [_ Hd2].
  pose proof (Zdigits2_bounds m1 Hm1) as [Hn1 _].
  pose proof (Zdigits2_pos m2 Hm2). pose proof (Zdigits2_pos m1 Hm1).
  pose proof (pow2_pos s Hs). pose proof (pow2_pos k Hk).
  assert (2 ^ (Zdigits2 m1 - 1 + s) < 2 ^ (k + Zdigits2 m2)) as H'.
  { rewrite !Z.pow_add_r by lia.
    assert (2 ^ (Zdigits2 m1 - 1) * 2 ^ s <= m1 * 2 ^ s)
      by (apply Z.mul_le_mono_nonneg_r; lia).
    assert ((q + 1) * m2 <= 2 ^ k * m2)
      by (apply Z.mul_le_mono_nonneg_r; lia).
    assert (2 ^ k * m2 < 2 ^ k * 2 ^ Zdigits2 m2)
      by (apply Z.mul_lt_mono_pos_l; lia).
    lia. }
  apply pow2_lt_inv in H'; lia.
Qed.



Lemma shift_pow2 (m s : Z) :
  0 <= s ->
  match s with Z.pos _ => Z.shiftl m s | Z0 => m | Z.neg _ => 0 end = m * 2 ^ s.
Proof.
  intros Hs. destruct s as [|p|p]; [lia| |lia].
  apply Z.shiftl_mul_pow2. lia.
Qed.

Lemma fine_unit (m1 m2 a T c Q : Z) :
  0 < m2 < 2 * Q -> Q <= m1 -> 0 < a -> 0 < T -> 0 < c -> a * T <= c ->
  m2 * a * T < 2 * (m1 * c).
Proof.
  intros Hm2 Hm1 Ha HT Hc Hle.
  assert (m2 * a * T <= m2 * c) by nia.
  assert (m2 * c < 2 * Q * c) by nia.
  assert (2 * Q * c <= 2 * (m1 * c)) by nia. lia.
Qed.




(** The format has at least two bits of precision and holds the number 2. *)
Section Division.
Variables prec emax : Z.
Hypothesis Hprec : 2 <= prec.
Hypothesis Hemax : 2 <= emax.

#[local] Abbreviation fexp := (fexp prec emax).
#[local] Abbreviation emin := (emin prec emax).


(** A divisor above 1 has its leading digit at or above the units. *)
Lemma above_one_digits m2 e2 :
  2 ^ Z.max (- e2) 0 < Z.pos m2 * 2 ^ Z.max e2 0 ->
  1 <= Z.pos (digits2_pos m2) + e2.
Proof.
  intros HD. pose proof (digits2_pos_bounds m2) as [_ Hhi].
  pose proof (pow2_pos (Z.max e2 0) ltac:(lia)).
  assert (2 ^ Z.max (- e2) 0 < 2 ^ (Z.pos (digits2_pos m2) + Z.max e2 0)) as Hlt.
  { rewrite Z.pow_add_r by lia.
    assert (Z.pos m2 * 2 ^ Z.max e2 0
            < 2 ^ Z.pos (digits2_pos m2) * 2 ^ Z.max e2 0)
      by (apply Z.mul_lt_mono_pos_r; lia).
    lia. }
  apply pow2_lt_inv in Hlt; lia.
Qed.

(** A value of the format between 1 and 2. *)
Lemma between_one_and_two m2 e2 :
  bounded prec emax m2 e2 = true ->
  2 ^ Z.max (- e2) 0 < Z.pos m2 * 2 ^ Z.max e2 0 ->
  ~ 2 * 2 ^ Z.max (- e2) 0 <= Z.pos m2 * 2 ^ Z.max e2 0 ->
  e2 = 1 - prec /\ Z.pos m2 < 2 ^ prec.
Proof.
  intros [Hc Hle]%bounded_inv HD Hlt.
  pose proof (above_one_digits _ _ HD) as Hge.
  pose proof (digits2_pos_bounds m2) as [Hlo Hhi].
  pose proof (pow2_pos (Z.max e2 0) ltac:(lia)).
  assert (Z.pos (digits2_pos m2) + e2 <= 1) as Hle1.
  { assert (2 ^ (Z.pos (digits2_pos m2) - 1 + Z.max e2 0)
            < 2 ^ (1 + Z.max (- e2) 0)) as H'.
    { rewrite !Z.pow_add_r by lia.
      assert (2 ^ (Z.pos (digits2_pos m2) - 1) * 2 ^ Z.max e2 0
              <= Z.pos m2 * 2 ^ Z.max e2 0)
        by (apply Z.mul_le_mono_nonneg_r; lia).
      change (2 ^ 1) with 2. lia. }
    apply pow2_lt_inv in H'; lia. }
  unfold SpecFloat.emin in *.
  assert (e2 = 1 - prec) as -> by lia.
  split; [done|].
  assert (Z.pos (digits2_pos m2) = prec) as <- by lia. done.
Qed.


(** The quotient of a value of the format by a value above 1: a zero or
    a value of the format, of the dividend's sign and no larger; smaller
    when the divisor is at least 2 or the dividend is a normal number. *)
Lemma SFdiv_above_one s1 m1 e1 m2 e2 :
  bounded prec emax m1 e1 = true -> bounded prec emax m2 e2 = true ->
  2 ^ Z.max (- e2) 0 < Z.pos m2 * 2 ^ Z.max e2 0 ->
  let x := S754_finite s1 m1 e1 in
  let r := SFdiv prec emax x (S754_finite false m2 e2) in
  finite_value prec emax r = true /\
  (r = S754_zero s1 \/ exists m e, r = S754_finite s1 m e) /\
  magnitude emin r <= magnitude emin x /\
  (2 * 2 ^ Z.max (- e2) 0 <= Z.pos m2 * 2 ^ Z.max e2 0 ->
   magnitude emin r < magnitude emin x) /\
  (Z.pos (digits2_pos m1) = prec -> magnitude emin r < magnitude emin x).
Proof.
  intros Hb1 Hb2 HD x r.
  pose proof (bounded_inv _ _ _ _ Hb1) as [Hc1 Hle1].
  pose proof (bounded_inv _ _ _ _ Hb2) as [Hc2 Hle2].
  pose proof (above_one_digits _ _ HD) as Hde2.
  pose proof (between_one_and_two m2 e2 Hb2 HD) as Hbetween.
  pose proof (digits2_pos_bounds m1) as [Hlo1 _].
  change (fexp (Z.pos (digits2_pos m1) + e1) = e1) in Hc1.
  clear Hc2.
  set (d1 := Z.pos (digits2_pos m1)) in *.
  set (d2 := Z.pos (digits2_pos m2)) in *.
  assert (0 < d1) as Hd1 by (unfold d1; lia).
  set (t := Z.max (- e2) 0) in *. set (u := Z.max e2 0) in *.
  assert (e2 = u - t /\ 0 <= t /\ 0 <= u /\ (e2 = 1 - prec -> u = 0 /\ t = prec - 1))
    as (He2 & Ht & Hu & Htu) by lia.
  subst r x. cbn [SFdiv]. rewrite xorb_false_r.
  unfold SFdiv_core_binary. cbn [Zdigits2]. fold d1 d2.
  set (e' := Z.min (fexp (d1 + e1 - (d2 + e2))) (e1 - e2)).
  assert (e' <= fexp (d1 + e1 - (d2 + e2)) /\ e' <= e1 - e2) as [He'M He'le]
    by lia.
  set (s := e1 - e2 - e').
  assert (0 <= s) as Hs by lia.
  rewrite (shift_pow2 _ _ Hs).
  pose proof (Z_div_mod (Z.pos m1 * 2 ^ s) (Z.pos m2) ltac:(lia)) as Hdiv.
  destruct (Z.div_eucl (Z.pos m1 * 2 ^ s) (Z.pos m2)) as [q rm].
  destruct Hdiv as [HA Hrm].
  pose proof (pow2_pos s Hs) as Hps.
  assert (0 <= q) as Hq by (clear - HA Hrm Hps; nia).
  pose proof (binary_round_aux_spec prec emax _ _ s1 _ e' _
                (record_of_new_location q (Z.pos m2) rm Hq Hrm)) as Hspec.
  cbv zeta in Hspec.
  set (n := Z.max (fexp (Zdigits2 q + e') - e') 0) in *.
  destruct Hspec as (m & m' & Hm0 & HAm & Hm' & Hdown & Hup & Hup0 & Hmq & Hres).
  set (e'' := e' + n) in *.
  set (n' := Z.max (fexp (Zdigits2 m' + e'') - e'') 0) in *.
  rewrite Hres. clear Hres.
  replace (q * Z.pos m2 + rm) with (Z.pos m1 * 2 ^ s) in * by lia.
  assert (0 <= n /\ (n = 0 /\ fexp (Zdigits2 q + e') <= e'
                     \/ 0 < n /\ e'' = fexp (Zdigits2 q + e')))
    as [Hn Hncase] by (clear; lia).
  assert (0 <= n' /\ fexp (Zdigits2 m' + e'') <= e'' + n' /\
          (e'' <= fexp (Zdigits2 m' + e'') ->
           e'' + n' = fexp (Zdigits2 m' + e'')))
    as (Hn'0 & Hn'ge & Hn'eq) by (clear; lia).
  assert (e'' = e' + n) as He''eq by done.
  assert (s = e1 - e2 - e') as Hseq by done.
  clearbody t u e' s n e'' n'.
  pose proof (pow2_pos n Hn) as Hpn.
  pose proof (pow2_pos t Ht) as Hpt. pose proof (pow2_pos u Hu) as Hpu.
  (* the exponent of the quotient is at most the dividend's *)
  assert (e' <= e1) as He'.
  { pose proof (fexp_mono prec emax (d1 + e1 - (d2 + e2)) (d1 + e1)
                  ltac:(lia)). lia. }
  assert (Zdigits2 q + e' <= d1 + e1) as Hdq.
  { destruct (Z.eq_dec q 0) as [->|Hq0]; [simpl; lia|].
    pose proof (quotient_digits_upper q (Z.pos m1) (Z.pos m2) s
                  ltac:(lia) ltac:(lia) ltac:(lia) Hs ltac:(lia)) as H'.
    cbn [Zdigits2] in H'. fold d1 d2 in H'. lia. }
  assert (e'' <= e1) as He''.
  { pose proof (fexp_mono prec emax _ _ Hdq). lia. }
  assert (emin <= e'') as Hemin''.
  { pose proof (fexp_ge_emin prec emax (Zdigits2 q + e')). lia. }
  set (w := e1 - e'').
  assert (0 <= w) as Hw by lia.
  pose proof (pow2_pos w Hw) as Hpw.
  assert (2 ^ w * 2 ^ n * 2 ^ t = 2 ^ s * 2 ^ u) as Hunits.
  { rewrite <-!Z.pow_add_r by lia. f_equal. lia. }
  assert (m < Z.pos m1 * 2 ^ w) as HK1.
  { apply (quotient_floor_below (Z.pos m1) (Z.pos m2) (2 ^ n) (2 ^ t) (2 ^ s)
             (2 ^ u) (2 ^ w) (Z.pos m1 * 2 ^ s)); (done || lia). }
  assert (m' <= Z.pos m1 * 2 ^ w) as HK2 by lia.
  assert (2 * 2 ^ t <= Z.pos m2 * 2 ^ u -> m' < Z.pos m1 * 2 ^ w) as HK3.
  { intros HD2.
    apply (quotient_rounded_below (Z.pos m1) (Z.pos m2) (2 ^ n) (2 ^ t) (2 ^ s)
             (2 ^ u) (2 ^ w) (Z.pos m1 * 2 ^ s)) with (m := m);
      (done || lia). }
  assert (d1 = prec -> m' < Z.pos m1 * 2 ^ w) as HK4.
  { intros Hnormal.
    destruct (Z_le_gt_dec (2 * 2 ^ t) (Z.pos m2 * 2 ^ u)) as [HD2|HD2];
      [by apply HK3|].
    destruct Hbetween as [He2' Hm2]; [lia|].
    destruct (Htu He2') as [Hu0 Ht'].
    apply (quotient_rounded_below_normal (Z.pos m1) (Z.pos m2) (2 ^ n) (2 ^ t)
             (2 ^ s) (2 ^ u) (2 ^ w) (Z.pos m1 * 2 ^ s)) with (m := m);
      try (done || lia).
    rewrite Hnormal in Hlo1.
    assert (2 ^ n * 2 ^ t <= 2 ^ s) as Hnt.
    { rewrite <-Z.pow_add_r by lia. apply pow2_le; lia. }
    assert (2 ^ prec = 2 * 2 ^ (prec - 1)) as Hpp.
    { rewrite <-Z.pow_succ_r by lia. f_equal. lia. }
    apply (fine_unit _ _ _ _ _ (2 ^ (prec - 1))); lia. }
  clear Hbetween Htu.
  assert (0 <= m') as Hm'0 by lia.
  assert (0 < m' -> Zdigits2 m' + e'' <= d1 + e1) as Hd'.
  { intros Hpos.
    pose proof (Zdigits2_mono m' (Z.pos m1 * 2 ^ w) ltac:(lia)) as H'.
    rewrite Zdigits2_mul_pow2 in H' by lia. cbn [Zdigits2] in H'.
    fold d1 in H'. lia. }
  assert (0 < m' -> e'' <= fexp (Zdigits2 m' + e'')) as Hcanon.
  { intros Hpos. pose proof (Zdigits2_bounds m' Hpos) as [_ Hhi'].
    pose proof (Zdigits2_pos m' Hpos) as Hdp.
    destruct Hncase as [[Hn0 Hfq]|[Hn0 Hfq]].
    - rewrite Hn0 in *. change (2 ^ 0) with 1 in *.
      assert (e'' = e') as -> by lia.
      pose proof (quotient_digits_lower q (Zdigits2 m') (Z.pos m1) (Z.pos m2) s
                    Hq ltac:(lia) ltac:(lia) Hs ltac:(lia) ltac:(lia)
                    ltac:(lia)) as H'.
      cbn [Zdigits2] in H'. fold d1 d2 in H'.
      pose proof (fexp_mono prec emax (d1 + e1 - (d2 + e2))
                    (Zdigits2 m' + e') ltac:(lia)). lia.
    - destruct (Z.eq_dec e'' emin) as [->|Hne]; [apply fexp_ge_emin|].
      assert (n = Zdigits2 q - prec) as Hn'.
      { clear - Hfq Hne He''eq. unfold SpecFloat.fexp in *. lia. }
      assert (0 < q) as Hq0.
      { destruct (Z.eq_dec q 0) as [->|]; [simpl in Hn'; lia|lia]. }
      pose proof (Zdigits2_bounds q Hq0) as [Hloq _].
      assert (2 ^ (Zdigits2 q - 1) = 2 ^ (prec - 1) * 2 ^ n) as Hsplit.
      { rewrite <-Z.pow_add_r by lia. f_equal. lia. }
      pose proof (pow2_pos (prec - 1) ltac:(lia)).
      assert (2 ^ (prec - 1) <= m') as Hm'lo.
      { assert (2 ^ (prec - 1) * 2 ^ n < (m + 1) * 2 ^ n) as Hc by lia.
        apply Z.mul_lt_mono_pos_r in Hc; lia. }
      apply Zdigits2_ge_of_le in Hm'lo; [|lia].
      clear - Hm'lo. unfold SpecFloat.fexp. lia. }
  assert (0 < magnitude emin (S754_finite s1 m1 e1)) as Hmagx.
  { cbn [magnitude]. pose proof (pow2_pos (e1 - emin) ltac:(lia)). lia. }
  pose proof (pow2_pos n' Hn'0) as Hpn'.
  pose proof (Z.mul_div_le m' (2 ^ n') Hpn') as Hfloor.
  pose proof (Z.div_pos m' (2 ^ n') Hm'0 Hpn') as Hm3.
  destruct (m' / 2 ^ n') as [|p|p] eqn:E3; [| |lia].
  { split; [done|]. split; [by left|]. cbn [magnitude] in *.
    split; [lia|]. split; intros; lia. }
  assert (0 < m') as Hm'pos by (clear - Hfloor Hpn'; nia).
  specialize (Hd' Hm'pos). specialize (Hcanon Hm'pos).
  specialize (Hn'eq Hcanon).
  pose proof (fexp_mono prec emax _ _ Hd') as Hfe.
  assert (e'' + n' <= emax - prec) as Hrange by lia.
  rewrite (proj2 (Z.leb_le _ _) Hrange).
  assert (2 ^ n' <= m') as Hge by (clear - Hfloor Hpn'; nia).
  apply Zdigits2_ge_of_le in Hge; [|done].
  assert (Z.pos (digits2_pos p) = Zdigits2 m' - n') as Hdp.
  { change (Z.pos (digits2_pos p)) with (Zdigits2 (Z.pos p)).
    rewrite <-E3. apply Zdigits2_div_pow2; lia. }
  pose proof (pow2_pos (e'' - emin) ltac:(lia)) as Hpe.
  assert (Z.pos p * 2 ^ (e'' + n' - emin) <= m' * 2 ^ (e'' - emin)) as Hmag1.
  { replace (e'' + n' - emin) with (n' + (e'' - emin)) by lia.
    rewrite Z.pow_add_r by lia.
    rewrite Z.mul_assoc.
    apply Z.mul_le_mono_nonneg_r; lia. }
  assert (Z.pos m1 * 2 ^ (e1 - emin)
          = Z.pos m1 * 2 ^ w * 2 ^ (e'' - emin)) as Hmag2.
  { rewrite <-Z.mul_assoc, <-Z.pow_add_r by lia. do 2 f_equal. lia. }
  split.
  { cbn [finite_value]. apply bounded_intro; [|done].
    rewrite Hdp. replace (Zdigits2 m' - n' + (e'' + n')) with (Zdigits2 m' + e'') by lia.
    symmetry. exact Hn'eq. }
  split; [right; by do 2 eexists|].
  cbn [magnitude]. rewrite Hmag2.
  split.
  { assert (m' * 2 ^ (e'' - emin) <= Z.pos m1 * 2 ^ w * 2 ^ (e'' - emin))
      by (apply Z.mul_le_mono_nonneg_r; lia). lia. }
  assert (m' < Z.pos m1 * 2 ^ w ->
          Z.pos p * 2 ^ (e'' + n' - emin)
          < Z.pos m1 * 2 ^ w * 2 ^ (e'' - emin)) as Hstrict.
  { intros Hlt.
    assert (m' * 2 ^ (e'' - emin) < Z.pos m1 * 2 ^ w * 2 ^ (e'' - emin))
      by (apply Z.mul_lt_mono_pos_r; lia). lia. }
  split; intros Hcase; apply Hstrict; [by apply HK3|by apply HK4].
Qed.


End Division.

(** * Termination of the loop for divisors above 1 *)

(** [mt] is the mantissa of the numbers 1 and 2 in the format. *)
Section Termination.
Variables prec emax : Z.
Variable mt : positive.
Hypothesis Hprec : 2 <= prec.
Hypothesis Hemax : 2 <= emax.
Hypothesis Hmt : Z.pos mt = 2 ^ (prec - 1).
Implicit Types (v g : bfloat prec emax).

#[local] Abbreviation emin := (emin prec emax).
#[local] Abbreviation one := (one_of prec emax mt).
#[local] Abbreviation two := (two_of prec emax mt).
#[local] Abbreviation size g := (magnitude emin (sf g)).

(** A value of the format above the lowest exponent is normal. *)
Lemma bounded_normal m e :
  bounded prec emax m e = true -> emin < e ->
  Z.pos (digits2_pos m) = prec /\ 2 ^ (prec - 1) <= Z.pos m.
Proof.
  intros [Hc _]%bounded_inv He.
  assert (Z.pos (digits2_pos m) = prec) as Hd by lia.
  split; [done|]. pose proof (digits2_pos_bounds m) as [Hlo _].
  by rewrite Hd in Hlo.
Qed.

(** [1 < d] for a value [d] of the format. *)
Lemma above_one_inv (d : bfloat prec emax) :
  bf_valid d = true -> bf_lt one d = true ->
  sf d = S754_infinity false \/
  exists m e, sf d = S754_finite false m e /\ bounded prec emax m e = true /\
              2 ^ Z.max (- e) 0 < Z.pos m * 2 ^ Z.max e 0.
Proof.
  destruct d as [[s|s| |s m e]]; unfold bf_valid, bf_lt, SFltb;
    cbn [sf one_of SFcompare valid_binary]; intros Hb Hlt; try done.
  - destruct s; [done|by left].
  - right. destruct s; [done|]. exists m, e. split; [done|]. split; [done|].
    pose proof (pow2_pos (prec - 1) ltac:(lia)) as Hpp.
    assert (emin <= 1 - prec) as Hemin by (unfold SpecFloat.emin; lia).
    destruct (Z.compare_spec (1 - prec) e) as [<-|He|He]; [| |done].
    + change (Pos.compare_cont Eq mt m) with (mt ?= m)%positive in Hlt.
      destruct (Pos.compare_spec mt m) as [|Hm|]; try done.
      replace (Z.max (- (1 - prec)) 0) with (prec - 1) by lia.
      replace (Z.max (1 - prec) 0) with 0 by lia.
      change (2 ^ 0) with 1. lia.
    + destruct (bounded_normal m e Hb ltac:(lia)) as [_ Hm].
      pose proof (pow2_pos (Z.max e 0) ltac:(lia)).
      assert (2 ^ Z.max (- e) 0 < 2 ^ (prec - 1)) by (apply pow2_lt; lia).
      nia.
Qed.

(** [2 <= d] for a value [d] of the format. *)
Lemma at_least_two_inv (d : bfloat prec emax) :
  bf_valid d = true -> SFleb (sf two) (sf d) = true ->
  sf d = S754_infinity false \/
  exists m e, sf d = S754_finite false m e /\ bounded prec emax m e = true /\
              2 * 2 ^ Z.max (- e) 0 <= Z.pos m * 2 ^ Z.max e 0.
Proof.
  destruct d as [[s|s| |s m e]]; unfold bf_valid, SFleb;
    cbn [sf two_of SFcompare valid_binary]; intros Hb Hle; try done.
  - destruct s; [done|by left].
  - right. destruct s; [done|]. exists m, e. split; [done|]. split; [done|].
    pose proof (pow2_pos (prec - 1) ltac:(lia)) as Hpp.
    assert (emin <= 1 - prec) as Hemin by (unfold SpecFloat.emin; lia).
    assert (2 * 2 ^ (prec - 2) = 2 ^ (prec - 1)) as Hsucc.
    { rewrite <-Z.pow_succ_r by lia. f_equal. lia. }
    destruct (Z.compare_spec (2 - prec) e) as [<-|He|He]; [| |done].
    + change (Pos.compare_cont Eq mt m) with (mt ?= m)%positive in Hle.
      replace (Z.max (- (2 - prec)) 0) with (prec - 2) by lia.
      replace (Z.max (2 - prec) 0) with 0 by lia.
      change (2 ^ 0) with 1.
      destruct (Pos.compare_spec mt m) as [|Hm|]; try done; lia.
    + destruct (bounded_normal m e Hb ltac:(lia)) as [_ Hm].
      pose proof (pow2_pos (Z.max e 0) ltac:(lia)).
      assert (2 ^ Z.max (- e) 0 <= 2 ^ (prec - 2)) by (apply pow2_le; lia).
      nia.
Qed.

(** Two values of the format of one size are one value. *)
Lemma magnitude_inj m e m' e' :
  bounded prec emax m e = true -> bounded prec emax m' e' = true ->
  Z.pos m * 2 ^ (e - emin) = Z.pos m' * 2 ^ (e' - emin) ->
  m = m' /\ e = e'.
Proof.
  intros [Hc _]%bounded_inv [Hc' _]%bounded_inv Heq.
  assert (emin <= e) as He by lia. assert (emin <= e') as He' by lia.
  pose proof (Zdigits2_mul_pow2 (Z.pos m) (e - emin) ltac:(lia) ltac:(lia)) as H1.
  pose proof (Zdigits2_mul_pow2 (Z.pos m') (e' - emin) ltac:(lia) ltac:(lia)) as H2.
  rewrite Heq, H2 in H1. cbn [Zdigits2] in H1.
  assert (e = e') as <- by lia. split; [|done].
  pose proof (pow2_pos (e - emin) ltac:(lia)).
  apply Z.mul_cancel_r in Heq; [|lia]. by injection Heq.
Qed.


Lemma magnitude_nonneg (x : spec_float) : 0 <= magnitude emin x.
Proof.
  destruct x as [| | |s m e]; cbn [magnitude]; [lia..|].
  pose proof (Z.pow_nonneg 2 (e - emin) ltac:(lia)). lia.
Qed.

(** One division of a finite guess by a divisor above 1: the quotient is
    finite and no larger; it is smaller when the divisor is at least 2,
    and when it is not, the guess is a subnormal number that the
    division leaves as it is. *)
Lemma fdiv_above_one g (d : bfloat prec emax) :
  finite_value prec emax (sf g) = true ->
  bf_valid d = true -> bf_lt one d = true ->
  finite_value prec emax (sf (fdiv g d)) = true /\
  size (fdiv g d) <= size g /\
  (is_zero (sf g) = false -> SFleb (sf two) (sf d) = true ->
   size (fdiv g d) < size g) /\
  (is_zero (sf g) = false -> size (fdiv g d) = size g ->
   fdiv g d = g /\ is_subnormal prec (sf g) = true).
Proof.
  intros Hg Hd Hlt.
  destruct g as [x], d as [y]. cbn [fdiv bfloat_type]. unfold bf_div.
  cbn [sf] in *.
  destruct x as [s| | |s m e]; try done.
  { destruct (above_one_inv _ Hd Hlt)
      as [Hy|(m2 & e2 & Hy & _)]; cbn [sf] in Hy; subst y; done. }
  cbn [finite_value] in Hg.
  assert (0 < magnitude emin (S754_finite s m e)) as Hpos.
  { cbn [magnitude]. pose proof (bounded_inv _ _ _ _ Hg) as [Hc _].
    pose proof (pow2_pos (e - emin) ltac:(lia)). lia. }
  destruct (above_one_inv _ Hd Hlt)
    as [Hy|(m2 & e2 & Hy & Hb2 & HD)]; cbn [sf] in Hy; subst y.
  { cbn [SFdiv magnitude finite_value] in *. split; [done|]. split; [lia|].
    split; intros; lia. }
  pose proof (SFdiv_above_one prec emax Hprec Hemax s m e m2 e2 Hg Hb2 HD)
    as (Hfin & Hsign & Hle & Htwo & Hnormal).
  cbv zeta in *.
  split; [done|]. split; [done|]. split.
  - intros _ Hle2. apply Htwo.
    destruct (at_least_two_inv (BFloat (S754_finite false m2 e2)) Hd Hle2)
      as [?|(m2' & e2' & [= <- <-] & _ & H')]; done.
  - intros _ Heq.
    destruct (Z.eq_dec (Z.pos (digits2_pos m)) prec) as [Hdg|Hdg].
    { specialize (Hnormal Hdg). lia. }
    assert (Z.pos (digits2_pos m) < prec) as Hsub.
    { pose proof (bounded_inv _ _ _ _ Hg) as [Hc _]. lia. }
    split; [|cbn [is_subnormal]; by apply Z.ltb_lt].
    destruct Hsign as [Hz|(m' & e' & Hr)]; rewrite ?Hz, ?Hr in *.
    { cbn [magnitude] in *. lia. }
    cbn [finite_value magnitude] in *.
    destruct (magnitude_inj m' e' m e Hfin Hg Heq) as [-> ->].
    done.
Qed.

Lemma divide_finite n g (d : bfloat prec emax) :
  finite_value prec emax (sf g) = true ->
  bf_valid d = true -> bf_lt one d = true ->
  finite_value prec emax (sf (divide n d g)) = true.
Proof.
  intros Hg Hd Hlt. revert g Hg. induction n as [|n IH]; intros g Hg; [done|].
  cbn [divide]. apply IH. by apply fdiv_above_one.
Qed.

(** The guesses of the loop, for a divisor above 1: one of them fails the
    loop test, or they come to rest at a subnormal number and all pass
    the test. *)
Lemma guesses_above_one v (d : bfloat prec emax) g :
  is_nan (sf v) = false -> bf_valid d = true -> bf_lt one d = true ->
  finite_value prec emax (sf g) = true ->
  (exists n, significant v (divide n d g) = false) \/
  (exists n, is_subnormal prec (sf (divide n d g)) = true /\
             fdiv (divide n d g) d = divide n d g /\
             forall k, significant v (divide k d g) = true).
Proof.
  intros Hv Hd Hlt.
  assert (forall N x, size x < Z.of_nat N ->
            finite_value prec emax (sf x) = true ->
            (exists n, significant v (divide n d x) = false) \/
            (exists n, is_subnormal prec (sf (divide n d x)) = true /\
                       fdiv (divide n d x) d = divide n d x /\
                       forall k, significant v (divide k d x) = true)) as Hind.
  { induction N as [|N IH]; intros x Hsize Hx.
    { pose proof (magnitude_nonneg (sf x)). lia. }
    destruct (significant v x) eqn:Hsig; [|left; by exists O].
    destruct (is_zero (sf x)) eqn:Hz.
    { by rewrite (zero_absorbed prec emax v x Hv Hz) in Hsig. }
    destruct (fdiv_above_one x d Hx Hd Hlt) as (Hfin & Hle & _ & Hsame).
    destruct (Z.eq_dec (size (fdiv x d)) (size x)) as [Heq|Hne].
    - destruct (Hsame Hz Heq) as [Hfix Hsub].
      right. exists O. cbn [divide]. split; [done|]. split; [done|].
      induction k as [|k IHk]; [done|]. cbn [divide]. by rewrite Hfix.
    - assert (size (fdiv x d) < Z.of_nat N) as Hsize' by lia.
      destruct (IH (fdiv x d) Hsize' Hfin) as [[n Hn]|(n & Hsub & Hfix & Hall)].
      + left. by exists (S n).
      + right. exists (S n). cbn [divide]. split; [done|]. split; [done|].
        intros [|k]; [done|]. apply Hall. }
  intros Hg. apply (Hind (Z.to_nat (size g + 1))); [|done].
  pose proof (magnitude_nonneg (sf g)). lia.
Qed.

(** From 2 on, the divisor brings every finite guess to one that fails
    the loop test. *)
Lemma guesses_at_least_two v (d : bfloat prec emax) g :
  is_nan (sf v) = false -> bf_valid d = true ->
  SFleb (sf two) (sf d) = true -> bf_lt one d = true ->
  finite_value prec emax (sf g) = true ->
  exists n, significant v (divide n d g) = false.
Proof.
  intros Hv Hd Hle Hlt Hg.
  destruct (guesses_above_one v d g Hv Hd Hlt Hg)
    as [?|(n & Hsub & Hfix & _)]; [done|].
  pose proof (divide_finite n g d Hg Hd Hlt) as Hfin.
  destruct (fdiv_above_one _ d Hfin Hd Hlt) as (_ & _ & Hlower & _).
  assert (is_zero (sf (divide n d g)) = false) as Hz
    by (destruct (sf (divide n d g)); done).
  specialize (Hlower Hz Hle). rewrite Hfix in Hlower. lia.
Qed.

End Termination.

(** * Numbers that absorb every subnormal number *)

Lemma iter_xO m p : Z.pos (Pos.iter xO m p) = Z.pos m * 2 ^ Z.pos p.
Proof.
  induction p as [|p IH] using Pos.peano_ind.
  - simpl. lia.
  - rewrite Pos.iter_succ, Pos2Z.inj_xO, IH, Pos2Z.inj_succ, Z.pow_succ_r by lia.
    lia.
Qed.

Lemma shl_align_fst mx ex ex' :
  ex' <= ex -> Z.pos (fst (shl_align mx ex ex')) = Z.pos mx * 2 ^ (ex - ex').
Proof.
  intros Hle. unfold shl_align.
  destruct (ex' - ex) as [|p|p] eqn:E; [|lia|].
  - replace (ex - ex') with 0 by lia. simpl. lia.
  - cbn [fst]. rewrite iter_xO. f_equal. f_equal. lia.
Qed.

Lemma shl_align_id mx ex ex' : ex <= ex' -> shl_align mx ex ex' = (mx, ex).
Proof. intros Hle. unfold shl_align. destruct (ex' - ex) eqn:E; (done || lia). Qed.

Section Absorption.
Variables prec emax : Z.
Hypothesis Hprec : 2 <= prec.

#[local] Abbreviation fexp := (fexp prec emax).
#[local] Abbreviation emin := (emin prec emax).

(** Rounding a number [mv * 2 ^ k + delta] counted in units of
    [2 ^ emin], where [mv] has the format's precision and [delta], not
    zero, is below [2 ^ (prec - 1)] in size and [k] is above [prec]:
    the result is [mv] at the exponent [emin + k]. *)
Lemma binary_round_near sx (B mv : positive) k delta :
  Z.pos (digits2_pos mv) = prec -> prec + 1 <= k ->
  emin + k <= emax - prec ->
  Z.pos B = Z.pos mv * 2 ^ k + delta -> delta <> 0 ->
  - 2 ^ (prec - 1) < delta < 2 ^ (prec - 1) ->
  binary_round prec emax sx B emin = S754_finite sx mv (emin + k).
Proof.
  intros Hdv Hk Hrange HB Hd0 Hd.
  unfold binary_round.
  rewrite shl_align_id by apply fexp_ge_emin.
  pose proof (binary_round_aux_spec prec emax _ _ sx _ emin _
                (record_of_exact (Z.pos B) ltac:(lia))) as Hspec.
  cbv zeta in Hspec.
  pose proof (digits2_pos_bounds mv) as Hmv. rewrite Hdv in Hmv.
  assert (2 ^ k = 4 * 2 ^ (prec - 1) * 2 ^ (k - prec - 1)) as Hc.
  { replace 4 with (2 ^ 2) by done. rewrite <-!Z.pow_add_r by lia.
    f_equal. lia. }
  assert (2 ^ prec = 2 * 2 ^ (prec - 1)) as Hpp.
  { rewrite <-Z.pow_succ_r by lia. f_equal. lia. }
  pose proof (pow2_pos (prec - 1) ltac:(lia)) as HP1.
  pose proof (pow2_pos (k - prec - 1) ltac:(lia)) as Hrest.
  rewrite Hpp in Hmv.
  assert (4 * 2 ^ (prec - 1) <= 2 ^ k) as Hc4 by nia.
  clear Hc Hrest.
  destruct (Z_lt_le_dec 0 delta) as [Hpos|Hneg];
    [|destruct (Z.eq_dec (Z.pos mv) (2 ^ (prec - 1))) as [Hmin|Hmin]].
  - (* [delta] is added *)
    assert (Zdigits2 (Z.pos B) = prec + k) as Hdg.
    { apply Z.le_antisymm.
      - apply Zdigits2_le_of_lt; [lia|lia|].
        rewrite Z.pow_add_r, Hpp by lia. rewrite HB. nia.
      - assert (2 ^ (prec - 1 + k) <= Z.pos B) as H'
          by (rewrite Z.pow_add_r by lia; rewrite HB; nia).
        apply Zdigits2_ge_of_le in H'; lia. }
    rewrite Hdg in Hspec.
    replace (Z.max (fexp (prec + k + emin) - emin) 0) with k in Hspec
      by (unfold SpecFloat.fexp; lia).
    destruct Hspec as (m & m' & Hm0 & HAm & Hm' & Hdown & Hup & _ & _ & ->).
    rewrite Z.mul_1_l, HB in *.
    assert (m = Z.pos mv) as -> by nia.
    assert (m' = Z.pos mv) as ->.
    { destruct Hm' as [->| ->]; [done|]. specialize (Hup eq_refl). nia. }
    cbn [Zdigits2]. rewrite Hdv.
    replace (Z.max (fexp (prec + (emin + k)) - (emin + k)) 0) with 0
      by (unfold SpecFloat.fexp; lia).
    change (2 ^ 0) with 1. rewrite Z.div_1_r, Z.add_0_r.
    by rewrite (proj2 (Z.leb_le _ _) Hrange).
  - (* [delta] is taken from the least mantissa *)
    assert (2 ^ (k - 1) * 2 = 2 ^ k) as Hhalf.
    { rewrite Z.mul_comm, <-Z.pow_succ_r by lia. f_equal. lia. }
    pose proof (pow2_pos (k - 1) ltac:(lia)) as Hpc.
    assert (Zdigits2 (Z.pos B) = prec + k - 1) as Hdg.
    { apply Z.le_antisymm.
      - apply Zdigits2_le_of_lt; [lia|lia|].
        replace (prec + k - 1) with (prec - 1 + k) by lia.
        rewrite Z.pow_add_r by lia. rewrite HB, Hmin. nia.
      - assert (2 ^ (prec - 1 + (k - 1)) <= Z.pos B) as H'.
        { rewrite Z.pow_add_r by lia. rewrite HB, Hmin, <-Hhalf. nia. }
        apply Zdigits2_ge_of_le in H'; lia. }
    rewrite Hdg in Hspec.
    replace (Z.max (fexp (prec + k - 1 + emin) - emin) 0) with (k - 1) in Hspec
      by (unfold SpecFloat.fexp; lia).
    destruct Hspec as (m & m' & Hm0 & HAm & Hm' & Hdown & Hup & _ & _ & ->).
    rewrite Z.mul_1_l, HB, Hmin, <-Hhalf in *.
    assert (m = 2 * 2 ^ (prec - 1) - 1) as -> by nia.
    assert (m' = 2 ^ prec) as ->.
    { rewrite Hpp. destruct Hm' as [->| ->]; [|lia].
      specialize (Hdown eq_refl). nia. }
    assert (Zdigits2 (2 ^ prec) = prec + 1) as ->.
    { pose proof (Zdigits2_mul_pow2 1 prec ltac:(lia) ltac:(lia)) as H'.
      rewrite Z.mul_1_l in H'. rewrite H'. simpl. lia. }
    replace (Z.max (fexp (prec + 1 + (emin + (k - 1))) - (emin + (k - 1))) 0)
      with 1 by (unfold SpecFloat.fexp; lia).
    change (2 ^ 1) with 2. rewrite Hpp, Z.mul_comm, Z.div_mul by lia.
    rewrite <-Hmin.
    replace (emin + (k - 1) + 1) with (emin + k) by lia.
    by rewrite (proj2 (Z.leb_le _ _) Hrange).
  - (* [delta] is taken from a larger mantissa *)
    assert (Zdigits2 (Z.pos B) = prec + k) as Hdg.
    { apply Z.le_antisymm.
      - apply Zdigits2_le_of_lt; [lia|lia|].
        rewrite Z.pow_add_r, Hpp by lia. rewrite HB. nia.
      - assert (2 ^ (prec - 1 + k) <= Z.pos B) as H'
          by (rewrite Z.pow_add_r by lia; rewrite HB; nia).
        apply Zdigits2_ge_of_le in H'; lia. }
    rewrite Hdg in Hspec.
    replace (Z.max (fexp (prec + k + emin) - emin) 0) with k in Hspec
      by (unfold SpecFloat.fexp; lia).
    destruct Hspec as (m & m' & Hm0 & HAm & Hm' & Hdown & Hup & _ & _ & ->).
    rewrite Z.mul_1_l, HB in *.
    assert (m = Z.pos mv - 1) as -> by nia.
    assert (m' = Z.pos mv) as ->.
    { destruct Hm' as [->| ->]; [|lia]. specialize (Hdown eq_refl). nia. }
    cbn [Zdigits2]. rewrite Hdv.
    replace (Z.max (fexp (prec + (emin + k)) - (emin + k)) 0) with 0
      by (unfold SpecFloat.fexp; lia).
    change (2 ^ 0) with 1. rewrite Z.div_1_r, Z.add_0_r.
    by rewrite (proj2 (Z.leb_le _ _) Hrange).
Qed.

(** A value of the format with exponent at least [emin + prec + 1]
    absorbs every subnormal number added to it. *)
Lemma SFadd_subnormal sv mv ev sg mg eg :
  bounded prec emax mv ev = true -> bounded prec emax mg eg = true ->
  emin + prec + 1 <= ev -> Z.pos (digits2_pos mg) < prec ->
  SFadd prec emax (S754_finite sv mv ev) (S754_finite sg mg eg)
  = S754_finite sv mv ev.
Proof.
  intros Hbv Hbg Hev Hdg.
  pose proof (bounded_inv _ _ _ _ Hbv) as [Hcv Hrange].
  pose proof (bounded_inv _ _ _ _ Hbg) as [Hcg _].
  assert (eg = emin) as -> by lia.
  assert (Z.pos (digits2_pos mv) = prec) as Hdv by lia.
  clear Hcv Hcg.
  cbn [SFadd]. replace (Z.min ev emin) with emin by lia.
  rewrite (shl_align_id mg emin emin) by lia. cbn [fst].
  pose proof (shl_align_fst mv ev emin ltac:(lia)) as HX.
  set (X := fst (shl_align mv ev emin)) in *.
  set (k := ev - emin) in *.
  assert (prec + 1 <= k) as Hk by lia.
  pose proof (digits2_pos_bounds mg) as [_ Hmg].
  pose proof (digits2_pos_bounds mv) as [Hmv _]. rewrite Hdv in Hmv.
  assert (2 ^ Z.pos (digits2_pos mg) <= 2 ^ (prec - 1)) as Hmg'
    by (apply pow2_le; lia).
  assert (2 ^ (prec - 1) <= 2 ^ k) as Hpk by (apply pow2_le; lia).
  pose proof (pow2_pos (prec - 1) ltac:(lia)) as HP1.
  assert (Z.pos mg < Z.pos X) as Hlt by nia.
  set (delta := if Bool.eqb sv sg then Z.pos mg else - Z.pos mg).
  assert (exists B, cond_Zopp sv (Z.pos X) + cond_Zopp sg (Z.pos mg)
                    = cond_Zopp sv (Z.pos B) /\
                    Z.pos B = Z.pos mv * 2 ^ k + delta) as (B & -> & HB).
  { exists (Z.to_pos (Z.pos X + delta)). rewrite Z2Pos.id, HX.
    - split; [|done]. rewrite <-HX. unfold delta.
      destruct sv, sg; cbn [cond_Zopp Bool.eqb]; lia.
    - unfold delta. destruct (Bool.eqb sv sg); lia. }
  assert (binary_normalize prec emax (cond_Zopp sv (Z.pos B)) emin false
          = binary_round prec emax sv B emin) as -> by (by destruct sv).
  rewrite (binary_round_near sv B mv k delta); try (done || lia).
  - f_equal. lia.
  - unfold delta. destruct (Bool.eqb sv sg); lia.
  - unfold delta. destruct (Bool.eqb sv sg); lia.
Qed.

Lemma subnormal_absorbed (v g : bfloat prec emax) :
  bf_valid v = true -> outweighs_subnormals prec emax (sf v) = true ->
  finite_value prec emax (sf g) = true ->
  is_subnormal prec (sf g) = true ->
  significant v g = false.
Proof.
  destruct v as [x], g as [y]. unfold bf_valid. cbn [sf].
  intros Hv Hbig Hg Hsub.
  destruct y as [| | |sg mg eg]; try done.
  cbn [finite_value is_subnormal] in Hg, Hsub. apply Z.ltb_lt in Hsub.
  unfold significant. cbn [fne fadd bfloat_type]. unfold bf_ne, bf_add.
  cbn [sf]. apply negb_false_iff.
  destruct x as [|sv| |sv mv ev]; try done.
  - by destruct sv.
  - cbn [valid_binary outweighs_subnormals] in Hv, Hbig.
    apply Z.leb_le in Hbig.
    rewrite SFadd_subnormal by done.
    unfold SFeqb. cbn [SFcompare].
    by destruct sv; rewrite Z.compare_refl, Pos.compare_cont_refl.
Qed.
End Absorption.

(** * The loop for divisors above 1 *)

Section Loop.
Variables prec emax : Z.
Variable mt : positive.
Hypothesis Hprec : 2 <= prec.
Hypothesis Hemax : 2 <= emax.
Hypothesis Hmt : Z.pos mt = 2 ^ (prec - 1).
Implicit Types (v g : bfloat prec emax).

#[local] Abbreviation one := (one_of prec emax mt).
#[local] Abbreviation two := (two_of prec emax mt).

(** The loop of [accuracy_bound] for a divisor above 1, a value other
    than NaN and a finite initial guess. *)
Lemma loop_above_one v (d : bfloat prec emax) g :
  is_nan (sf v) = false -> bf_valid d = true -> bf_lt one d = true ->
  finite_value prec emax (sf g) = true ->
  ((exists fuel r, accuracy_bound fuel v d g = Some r) \/
   (exists n, let e := divide n d g in
              is_subnormal prec (sf e) = true /\ fdiv e d = e /\
              significant v e = true) /\
   (forall fuel, accuracy_bound fuel v d g = None)) /\
  (SFleb (sf two) (sf d) = true ->
   exists fuel r, accuracy_bound fuel v d g = Some r) /\
  (bf_valid v = true -> outweighs_subnormals prec emax (sf v) = true ->
   exists fuel r, accuracy_bound fuel v d g = Some r).
Proof.
  intros Hv Hd Hlt Hg.
  pose proof (guesses_above_one prec emax mt Hprec Hemax Hmt v d g Hv Hd Hlt Hg)
    as Hcases.
  split_and!.
  - destruct Hcases as [Hn|(n & Hsub & Hfix & Hall)].
    + left. by apply accuracy_bound_returns_iff.
    + right. split; [exists n; cbv zeta; by split_and!|].
      intros fuel. unfold accuracy_bound.
      by rewrite while_loop_diverges.
  - intros Hle. apply accuracy_bound_returns_iff.
    by apply (guesses_at_least_two prec emax mt).
  - intros Hvalid Hbig. apply accuracy_bound_returns_iff.
    destruct Hcases as [Hn|(n & Hsub & Hfix & Hall)]; [done|].
    exists n. apply subnormal_absorbed; try done.
    by apply (divide_finite prec emax mt).
Qed.
End Loop.

(** * The templates at the driver's types *)

(** ** Where the back-off [epsilon * divisor] misses the previous guess *)

(** C1 at two inputs with a divisor above 1 and an initial guess that
    passes the loop test.

    [accuracy_bound<float>(0.0, 2.0, 1.0)]: the loop halves the guess 150
    times; [2^-149], the smallest positive [float], still changes 0, and
    its half rounds to 0. The function returns [0 * 2 = 0], which added to
    [value] gives [value].

    [accuracy_bound<double>(1 + 2^-52, 49.0, 2^-53)], away from underflow:
    the guess [2^-53] passes the loop test, [2^-53 / 49] does not, and the
    product of that quotient with 49 rounds to [2^-53 - 2^-106], which
    [value] absorbs. *)
Theorem accuracy_bound_returns_absorbed :
  (let value : float := lit 0 1 in
   let divisor : float := lit 2 1 in
   let initial_guess : float := lit 1 1 in
   bf_lt (lit 1 1) divisor = true /\
   significant value initial_guess = true /\
   iterations 151 value divisor initial_guess = Some 150%nat /\
   divide 149 divisor initial_guess = BFloat (S754_finite false 1 (-149)) /\
   significant value (divide 149 divisor initial_guess) = true /\
   divide 150 divisor initial_guess = BFloat (S754_zero false) /\
   accuracy_bound 151 value divisor initial_guess
     = Some (BFloat (S754_zero false)) /\
   significant value (BFloat (S754_zero false)) = false) /\
  (let value : double := BFloat (S754_finite false (2 ^ 52 + 1) (-52)) in
   let divisor : double := lit 49 1 in
   let initial_guess : double := BFloat (S754_finite false (2 ^ 52) (-105)) in
   let result : double := BFloat (S754_finite false (2 ^ 53 - 1) (-106)) in
   bf_valid value = true /\ bf_valid initial_guess = true /\
   bf_lt (lit 1 1) divisor = true /\
   significant value initial_guess = true /\
   iterations 2 value divisor initial_guess = Some 1%nat /\
   accuracy_bound 2 value divisor initial_guess = Some result /\
   significant value result = false).
Proof. vm_compute. repeat split. Qed.

(** C3 at [accuracy_bound<double>(1.0, 3.0, 1.0)]: the loop runs 34
    times; the guess before the last division is [p]; the function returns
    [(p / 3) * 3], which is one unit in the last place below [p]. *)
Theorem accuracy_bound_misses_previous_guess :
  let value : double := lit 1 1 in
  let divisor : double := lit 3 1 in
  let initial_guess : double := lit 1 1 in
  let p : double := BFloat (S754_finite false 7297063725362129 (-105)) in
  let r : double := BFloat (S754_finite false 7297063725362128 (-105)) in
  iterations 35 value divisor initial_guess = Some 34%nat /\
  divide 33 divisor initial_guess = p /\
  significant value p = true /\
  significant value (fdiv p divisor) = false /\
  accuracy_bound 35 value divisor initial_guess = Some r /\
  fne r p = true /\ exceeds p r.
Proof. vm_compute. repeat split. Qed.

(** ** Termination *)

(** C2 fails at [accuracy_bound<float>(0.0, 1.1, 1.0)]: the divisor is
    above 1, yet the guesses stop shrinking at [5 * 2^-149], whose
    quotient by 1.1 rounds to itself, and every guess changes 0. *)
Lemma accuracy_bound_diverges_about_zero :
  let value : float := lit 0 1 in
  let divisor : float := lit 11 10 in
  let initial_guess : float := lit 1 1 in
  bf_lt (lit 1 1) divisor = true /\
  divide 1100 divisor initial_guess = BFloat (S754_finite false 5 (-149)) /\
  ~ exists fuel r, accuracy_bound fuel value divisor initial_guess = Some r.
Proof.
  split_and!; [by vm_compute..|].
  intros (fuel & r & Hr). apply accuracy_bound_exit in Hr as (e & He & _).
  rewrite (while_loop_stuck 1100) in He; [done|by vm_compute..].
Qed.

(** C2, as amended: in each of the three types of the driver, for every
    value other than NaN, every divisor above 1 that the type has and
    every finite initial guess, the loop of [accuracy_bound] ends and the
    function returns, unless the guesses [initial_guess],
    [initial_guess / divisor], ... come to rest at a subnormal number
    that the division leaves as it is and that still changes the value:
    then the function never returns. It returns whenever the divisor is
    at least 2, and whenever the value is an infinity or has an exponent
    of [emin + prec + 1] at least, that is a size of
    [2 ^ (emin + 2 * prec)] at least: [2^-101], [2^-968] and [2^-16317]
    in the three types. *)
Theorem accuracy_bound_termination (prec emax : Z) :
  (prec, emax) = (24, 128) \/ (prec, emax) = (53, 1024) \/
  (prec, emax) = (64, 16384) ->
  forall value divisor initial_guess : bfloat prec emax,
    is_nan (sf value) = false ->
    bf_valid divisor = true -> bf_lt (lit 1 1) divisor = true ->
    finite_value prec emax (sf initial_guess) = true ->
    ((exists fuel r,
        accuracy_bound fuel value divisor initial_guess = Some r) \/
     (exists n, let e := divide n divisor initial_guess in
                is_subnormal prec (sf e) = true /\ fdiv e divisor = e /\
                significant value e = true) /\
     (forall fuel, accuracy_bound fuel value divisor initial_guess = None)) /\
    (SFleb (sf (lit 2 1 : bfloat prec emax)) (sf divisor) = true ->
     exists fuel r, accuracy_bound fuel value divisor initial_guess = Some r) /\
    (bf_valid value = true ->
     outweighs_subnormals prec emax (sf value) = true ->
     exists fuel r, accuracy_bound fuel value divisor initial_guess = Some r).
Proof.
  intros [[= -> ->]|[[= -> ->]|[= -> ->]]] v d g.
  - by apply (loop_above_one 24 128 8388608).
  - by apply (loop_above_one 53 1024 4503599627370496).
  - by apply (loop_above_one 64 16384 9223372036854775808).
Qed.

(** ** The driver *)

Lemma main_vectors_fuel_mono fuel fuel' v :
  main_vectors fuel = Some v -> (fuel <= fuel')%nat ->
  main_vectors fuel' = Some v.
Proof.
  unfold main_vectors. intros Hv Hle.
  destruct (accuracy_vector fuel _ single_divisors _) as [s|] eqn:Hs; [|done].
  destruct (accuracy_vector fuel _ double_divisors _) as [d|] eqn:Hd; [|done].
  destruct (accuracy_vector fuel _ extended_divisors _) as [e|] eqn:He; [|done].
  rewrite (accuracy_vector_fuel_mono _ _ _ _ _ _ Hs Hle).
  rewrite (accuracy_vector_fuel_mono _ _ _ _ _ _ Hd Hle).
  rewrite (accuracy_vector_fuel_mono _ _ _ _ _ _ He Hle).
  done.
Qed.

Lemma main_vectors_driver fuel :
  main_vectors fuel = driver_vectors fuel (literal 1 1) single_divisors (literal 1 1).
Proof. done. Qed.


(** Nor does the order of the bounds follow the width for a negative
    initial guess: with value 1, the one divisor 2 and initial guess -1,
    the three runs return [-2^-24], [-2^-53] and [-2^-64]; the bound of
    the narrower type is the smaller number. *)
Lemma negative_guess_reverses_order :
  exists v b,
    driver_vectors 70 (literal 1 1) [lit 2 1] (literal (-1) 1) = Some v /\
    final_bounds v = Some b /\
    b = (BFloat (S754_finite true 8388608 (-47)),
         BFloat (S754_finite true 4503599627370496 (-105)),
         BFloat (S754_finite true 9223372036854775808 (-127))) /\
    ~ narrower_exceeds b /\
    exceeds b.2 b.1.2 /\ exceeds b.1.2 b.1.1.
Proof.
  do 2 eexists.
  split; [by vm_compute|]. split; [by vm_compute|]. split; [done|].
  split; [|by vm_compute].
  intros [Hsd _]. vm_compute in Hsd. done.
Qed.


(** C7: [main] runs [accuracy_vector] once for each type, with value 1
    and initial guess 1 converted to that type, and prints the last
    element of each result, the one after all the others, next to
    [2^-24], [2^-53] and [2^-64]. The three elements are
    [8388673 * 2^-47], [4503634533001963 * 2^-105] and
    [9223443523588014633 * 2^-127]; [main] prints them although none of
    them equals the number printed next to it. *)
Theorem main_reports_last_bounds fuel :
  (65 <= fuel)%nat ->
  exists (sv sv' : list float) (dv dv' : list double)
         (ev ev' : list long_double)
         (s : float) (d : double) (e : long_double),
    accuracy_vector fuel (lit 1 1) single_divisors (lit 1 1) = Some sv /\
    accuracy_vector fuel (literal 1 1) double_divisors (literal 1 1) = Some dv /\
    accuracy_vector fuel (lit 1 1) extended_divisors (lit 1 1) = Some ev /\
    sv = sv' ++ [s] /\ dv = dv' ++ [d] /\ ev = ev' ++ [e] /\
    s = BFloat (S754_finite false 8388673 (-47)) /\
    d = BFloat (S754_finite false 4503634533001963 (-105)) /\
    e = BFloat (S754_finite false 9223443523588014633 (-127)) /\
    accuracy_vector fuel (lit 1 1) single_divisors (lit 1 1) ≫= last_element
      = Some s /\
    accuracy_vector fuel (literal 1 1) double_divisors (literal 1 1) ≫= last_element
      = Some d /\
    accuracy_vector fuel (lit 1 1) extended_divisors (lit 1 1) ≫= last_element
      = Some e /\
    main fuel =
      Some [ ConsoleLine "Single precision accuracy upper bound: "
               (sf s) (S754_finite false (2 ^ 52) (-24 - 52));
             ConsoleLine "Double precision accuracy upper bound: "
               (sf d) (S754_finite false (2 ^ 52) (-53 - 52));
             ConsoleLine "Extended precision accuracy upper bound: "
               (sf e) (S754_finite false (2 ^ 52) (-64 - 52)) ] /\
    ~ same_value s (pow2 (-24)) /\ ~ same_value d (pow2 (-53)) /\
    ~ same_value e (pow2 (-64)).
Proof.
  intros Hfuel.
  destruct (main_vectors 65) as [v|] eqn:Hv; [|by vm_compute in Hv].
  apply (main_vectors_fuel_mono _ fuel) in Hv as Hv'; [|done].
  vm_compute in Hv. injection Hv as <-.
  unfold main. rewrite Hv'. unfold main_vectors in Hv'.
  destruct (accuracy_vector fuel _ single_divisors _) as [sv|]; [|done].
  destruct (accuracy_vector fuel _ double_divisors _) as [dv|]; [|done].
  destruct (accuracy_vector fuel _ extended_divisors _) as [ev|]; [|done].
  injection Hv' as -> -> ->.
  do 9 eexists. split; [done|]. split; [done|]. split; [done|].
  split; [exact (eq_refl ([_; _; _; _; _] ++ [_]))|].
  split; [exact (eq_refl ([_; _; _; _; _] ++ [_]))|].
  split; [exact (eq_refl ([_; _; _; _; _] ++ [_]))|].
  split; [done|]. split; [done|]. split; [done|].
  split; [by vm_compute|]. split; [by vm_compute|]. split; [by vm_compute|].
  split; [by vm_compute|].
  split_and!; intros Hsame; vm_compute in Hsame; done.
Qed.

(** C8: the [double] and [long double] divisors are the [float] divisors
    converted, every one of the eighteen is a value of its format, and at
    each index the three stand for the same number: 2 and the [float]s
    nearest to 1.1, 1.01, 1.001, 1.0001 and 1.00001 (each within half a
    unit in the last place, [2^-24], of the decimal). *)
Theorem driver_divisors_same_values :
  double_divisors = convert <$> single_divisors /\
  extended_divisors = convert <$> single_divisors /\
  Forall (fun x => bf_valid x = true) single_divisors /\
  Forall (fun x => bf_valid x = true) double_divisors /\
  Forall (fun x => bf_valid x = true) extended_divisors /\
  Forall2 same_value single_divisors double_divisors /\
  Forall2 same_value single_divisors extended_divisors /\
  Forall2 (fun x q => exists y, to_Q x = Some y /\ (y == q)%Q) single_divisors
    [ 2%Q; (9227469 # 8388608)%Q; (8472494 # 8388608)%Q;
      (8396997 # 8388608)%Q; (8389447 # 8388608)%Q; (8388692 # 8388608)%Q ] /\
  Forall2 (fun x q => exists y, to_Q x = Some y /\
                                (Qabs (y - q) <= 1 # 16777216)%Q)
    single_divisors
    [ 2%Q; (11 # 10)%Q; (101 # 100)%Q; (1001 # 1000)%Q; (10001 # 10000)%Q;
      (100001 # 100000)%Q ].
Proof.
  split_and!; [done|done|..].
  - repeat constructor.
  - repeat constructor.
  - repeat constructor.
  - repeat (constructor; [by vm_compute|]). constructor.
  - repeat (constructor; [by vm_compute|]). constructor.
  - repeat (constructor; [eexists; split; [by vm_compute|by vm_compute]|]).
    constructor.
  - repeat (constructor; [eexists; split; [by vm_compute|by vm_compute]|]).
    constructor.
Qed.

(** C9 fails at [accuracy_bound<float>(1.0, 2.0, 0.0)]: 0 is absorbed at
    entry, and the function returns [0 * 2 = 0], which is not larger than
    the initial guess. *)
Lemma zero_guess_returned_unchanged :
  let value : float := lit 1 1 in
  let divisor : float := lit 2 1 in
  let initial_guess : float := lit 0 1 in
  significant value initial_guess = false /\
  accuracy_bound 1 value divisor initial_guess = Some initial_guess /\
  bf_lt initial_guess initial_guess = false.
Proof. by vm_compute. Qed.

(** C5 at a vector of 2^32 divisors: its size converts to the [unsigned]
    0, so the function returns an empty vector. *)
Theorem accuracy_vector_drops_long_vector :
  let divs : list float := replicate (Z.to_nat 4294967296) (lit 2 1) in
  length divs = Z.to_nat 4294967296 /\
  accuracy_vector 1 (lit 1 1) divs (lit 1 1) = Some [].
Proof.
  intros divs. assert (length divs = Z.to_nat 4294967296) as Hlen
    by apply length_replicate.
  split; [done|]. apply accuracy_vector_size_zero.
  rewrite Hlen, Z2Nat.id by done. done.
Qed.

(** The numbers [main] prints for comparison are the powers of two. *)
Lemma pow2_values :
  Forall2 (fun k q => exists y, to_Q (pow2 k) = Some y /\ (y == q)%Q)
    [-24; -53; -64]
    [ (1 # 16777216)%Q; (1 # 9007199254740992)%Q;
      (1 # 18446744073709551616)%Q ].
Proof.
  repeat (constructor; [eexists; split; [by vm_compute|by vm_compute]|]).
  constructor.
Qed.

(** The scenario of one stage with divisor 2 about 1: the bound found is
    the gap between 1 and the next number of the type. *)
Lemma halving_bounds_about_one :
  accuracy_bound 25 (lit 1 1 : float) (lit 2 1) (lit 1 1)
    = Some (BFloat (S754_finite false (2 ^ 23) (-23 - 23))) /\
  accuracy_bound 54 (lit 1 1 : double) (lit 2 1) (lit 1 1)
    = Some (BFloat (S754_finite false (2 ^ 52) (-52 - 52))) /\
  accuracy_bound 65 (lit 1 1 : long_double) (lit 2 1) (lit 1 1)
    = Some (BFloat (S754_finite false (2 ^ 63) (-63 - 63))).
Proof. by vm_compute. Qed.

(** Every number [main] computes is a value of its type. *)
Lemma main_vectors_valid fuel v :
  main_vectors fuel = Some v ->
  Forall (fun x => bf_valid x = true) (single_vector v) /\
  Forall (fun x => bf_valid x = true) (double_vector v) /\
  Forall (fun x => bf_valid x = true) (extended_vector v).
Proof.
  intros Hv.
  assert (main_vectors (65 `max` fuel) = Some v) as Hmax
    by (eapply main_vectors_fuel_mono; [done|lia]).
  destruct (main_vectors 65) as [v'|] eqn:Hv'; [|by vm_compute in Hv'].
  apply (main_vectors_fuel_mono _ (65 `max` fuel)) in Hv' as Hmax'; [|lia].
  assert (v' = v) as -> by congruence.
  vm_compute in Hv'. injection Hv' as <-.
  split_and!; repeat constructor.
Qed.

(** * The theorems at concrete inputs *)

Lemma accuracy_bound_termination_witness :
  let value : float := lit 1 1 in
  let divisor : float := lit 3 1 in
  let initial_guess : float := lit 1 1 in
  ((24, 128) = (24, 128) \/ (24, 128) = (53, 1024) \/
   (24, 128) = (64, 16384)) /\
  is_nan (sf value) = false /\ bf_valid divisor = true /\
  bf_lt (lit 1 1) divisor = true /\
  finite_value 24 128 (sf initial_guess) = true /\
  SFleb (sf (lit 2 1 : float)) (sf divisor) = true /\
  bf_valid value = true /\
  outweighs_subnormals 24 128 (sf value) = true /\
  exists fuel r, accuracy_bound fuel value divisor initial_guess = Some r.
Proof.
  intros value divisor initial_guess.
  assert ((24, 128) = (24, 128) \/ (24, 128) = (53, 1024) \/
          (24, 128) = (64, 16384)) as Hty by (left; reflexivity).
  assert (is_nan (sf value) = false) as Hv by (vm_compute; reflexivity).
  assert (bf_valid divisor = true) as Hd by (vm_compute; reflexivity).
  assert (bf_lt (lit 1 1) divisor = true) as Hlt by (vm_compute; reflexivity).
  assert (finite_value 24 128 (sf initial_guess) = true) as Hg
    by (vm_compute; reflexivity).
  assert (SFleb (sf (lit 2 1 : float)) (sf divisor) = true) as Hle
    by (vm_compute; reflexivity).
  assert (bf_valid value = true) as Hvalid by (vm_compute; reflexivity).
  assert (outweighs_subnormals 24 128 (sf value) = true) as Hbig
    by (vm_compute; reflexivity).
  pose proof (accuracy_bound_termination 24 128 Hty value divisor initial_guess
                Hv Hd Hlt Hg) as (_ & Htwo & _).
  split; [exact Hty|]. split; [exact Hv|]. split; [exact Hd|].
  split; [exact Hlt|]. split; [exact Hg|]. split; [exact Hle|].
  split; [exact Hvalid|]. split; [exact Hbig|]. exact (Htwo Hle).
Defined.

Lemma accuracy_vector_stagewise_witness :
  let out : list float :=
    [ BFloat (S754_finite false 8388608 (-46));
      BFloat (S754_finite false 8609363 (-47));
      BFloat (S754_finite false 8439725 (-47));
      BFloat (S754_finite false 8389261 (-47));
      BFloat (S754_finite false 8389261 (-47));
      BFloat (S754_finite false 8388673 (-47)) ] in
  accuracy_vector 25 (lit 1 1) single_divisors (lit 1 1) = Some out /\
  length out = handled single_divisors /\
  forall k, (k < handled single_divisors)%nat ->
    exists d s r, single_divisors !! k = Some d /\
                  seed (lit 1 1) out k = Some s /\ out !! k = Some r /\
                  accuracy_bound 25 (lit 1 1) d s = Some r.
Proof.
  intros out.
  assert (accuracy_vector 25 (lit 1 1) single_divisors (lit 1 1) = Some out)
    as Hout by (vm_compute; reflexivity).
  split; [exact Hout|].
  exact (proj1 (accuracy_vector_stagewise 25 (lit 1 1) single_divisors (lit 1 1) out) Hout).
Defined.

Lemma accuracy_bound_insignificant_guess_witness :
  let g : float := BFloat (S754_finite false 8388608 (-53)) in
  significant (lit 1 1) g = false /\
  iterations 1 (lit 1 1) (lit 2 1) g = Some O /\
  accuracy_bound 1 (lit 1 1) (lit 2 1) g = Some (fmul g (lit 2 1)).
Proof.
  intros g.
  assert (significant (lit 1 1) g = false) as Hg by (vm_compute; reflexivity).
  split; [exact Hg|].
  exact (accuracy_bound_insignificant_guess 0 (lit 1 1) (lit 2 1) g Hg).
Defined.


Lemma main_reports_last_bounds_witness :
  (65 <= 80)%nat /\
  exists (sv sv' : list float) (dv dv' : list double)
         (ev ev' : list long_double)
         (s : float) (d : double) (e : long_double),
    accuracy_vector 80 (lit 1 1) single_divisors (lit 1 1) = Some sv /\
    accuracy_vector 80 (literal 1 1) double_divisors (literal 1 1) = Some dv /\
    accuracy_vector 80 (lit 1 1) extended_divisors (lit 1 1) = Some ev /\
    sv = sv' ++ [s] /\ dv = dv' ++ [d] /\ ev = ev' ++ [e] /\
    s = BFloat (S754_finite false 8388673 (-47)) /\
    d = BFloat (S754_finite false 4503634533001963 (-105)) /\
    e = BFloat (S754_finite false 9223443523588014633 (-127)) /\
    accuracy_vector 80 (lit 1 1) single_divisors (lit 1 1) ≫= last_element
      = Some s /\
    accuracy_vector 80 (literal 1 1) double_divisors (literal 1 1) ≫= last_element
      = Some d /\
    accuracy_vector 80 (lit 1 1) extended_divisors (lit 1 1) ≫= last_element
      = Some e /\
    main 80 =
      Some [ ConsoleLine "Single precision accuracy upper bound: "
               (sf s) (S754_finite false (2 ^ 52) (-24 - 52));
             ConsoleLine "Double precision accuracy upper bound: "
               (sf d) (S754_finite false (2 ^ 52) (-53 - 52));
             ConsoleLine "Extended precision accuracy upper bound: "
               (sf e) (S754_finite false (2 ^ 52) (-64 - 52)) ] /\
    ~ same_value s (pow2 (-24)) /\ ~ same_value d (pow2 (-53)) /\
    ~ same_value e (pow2 (-64)).
Proof.
  assert (65 <= 80)%nat as Hfuel by lia. split; [exact Hfuel|].
  exact (main_reports_last_bounds 80 Hfuel).
Defined.
